(** * check_gap_stock: the availability-extraction pipeline

    A shallow embedding of [check_gap_stock.py]: the flattener, the record
    correlator, the availability interpreter, the text fallback and the
    orchestrator, with the properties of the pipeline proved about them.

    Conventions of the model.
    - Text is ASCII: a Python [str] is a [string]; the character tests
      ([str.lower], [str.strip], [str.isdigit], the regex classes [\s], [\w])
      follow CPython on the codes 0..127 and leave the codes above 127 alone
      (no case, no digit, no space, no word character). The characters
      outside ASCII that the program itself writes, the two dashes of the
      text fallback and the signs of the messages, stand as their UTF-8
      bytes.
    - An exception that the program does not catch is a result of its own:
      a function that can raise returns an [outcome]. The one such exception
      is the [ValueError] of [int] on a string of more digits than
      [sys.int_max_str_digits] allows.
    - A Python [dict] is an association list in insertion order; assigning to
      a key that is present replaces the value where the key already stands.
    - JSON numbers are [int] (as [Z]) or [float] (a binary float by sign,
      mantissa and exponent); the text [str] gives for a float is a parameter
      of the development.
    - [re.search] is modelled by a matcher that returns every way a pattern
      can match at a position: a search succeeds when some position has one. *)

From Stdlib Require Import List String Ascii ZArith NArith Lia Bool Arith.
From Stdlib Require Import DecimalString DecimalNat.
From Stdlib Require Import Floats.SpecFloat.
Import ListNotations.

Open Scope string_scope.
Open Scope bool_scope.

(* ===================================================================== *)
(** ** Exceptions *)
(* ===================================================================== *)

Inductive exn : Type := ValueError.

(** What a call comes to: a value, or an exception that goes up to the
    caller. *)
Inductive outcome (A : Type) : Type :=
| Return (a : A)
| Raise (e : exn).

Arguments Return {A} a.
Arguments Raise {A} e.

Definition bind {A B : Type} (x : outcome A) (f : A -> outcome B)
  : outcome B :=
  match x with
  | Return a => f a
  | Raise e => Raise e
  end.

Notation "x <- c1 ;; c2" := (bind c1 (fun x => c2))
  (at level 61, c1 at next level, right associativity).

(* ===================================================================== *)
(** ** Python strings *)
(* ===================================================================== *)

Module PyStr.

Definition code (c : ascii) : N := N_of_ascii c.

Definition between (lo hi : N) (c : ascii) : bool :=
  ((lo <=? code c) && (code c <=? hi))%N.

Definition is_upper (c : ascii) : bool := between 65 90 c.
Definition is_lower (c : ascii) : bool := between 97 122 c.
Definition is_digit (c : ascii) : bool := between 48 57 c.
Definition is_alpha (c : ascii) : bool := is_upper c || is_lower c.

(** [\w] on ASCII text: letters, digits and the underscore. *)
Definition is_word (c : ascii) : bool :=
  is_alpha c || is_digit c || (c =? "_")%char.

(** [str.isspace] and [\s] on ASCII text: TAB..CR, FS..US and the space. *)
Definition is_space (c : ascii) : bool := between 9 13 c || between 28 32 c.

Definition lower_char (c : ascii) : ascii :=
  if is_upper c then ascii_of_N (code c + 32) else c.

(** [s.lower()] *)
Fixpoint lower (s : string) : string :=
  match s with
  | EmptyString => EmptyString
  | String c s' => String (lower_char c) (lower s')
  end.

Fixpoint lstrip (s : string) : string :=
  match s with
  | EmptyString => EmptyString
  | String c s' => if is_space c then lstrip s' else s
  end.

Fixpoint rstrip (s : string) : string :=
  match s with
  | EmptyString => EmptyString
  | String c s' =>
      match rstrip s' with
      | EmptyString => if is_space c then EmptyString else String c EmptyString
      | r => String c r
      end
  end.

(** [s.strip()] *)
Definition strip (s : string) : string := rstrip (lstrip s).

(** Truth value of a string: [bool(s)]. *)
Definition nonempty (s : string) : bool :=
  match s with EmptyString => false | _ => true end.

(** [s.startswith(p)] *)
Definition startswith (s p : string) : bool := prefix p s.

(** [needle in hay] *)
Fixpoint contains (needle hay : string) : bool :=
  prefix needle hay ||
  match hay with
  | EmptyString => false
  | String _ h => contains needle h
  end.

(** [any(tok in s for tok in toks)] *)
Definition any_in (toks : list string) (s : string) : bool :=
  existsb (fun tok => contains tok s) toks.

(** [s in toks] for a set of strings. *)
Definition member (s : string) (toks : list string) : bool :=
  existsb (String.eqb s) toks.

(** [k.rsplit(".", 1)[0]]: the text before the last dot, all of [k] when
    there is none. *)
Fixpoint rsplit1_head (k : string) : string :=
  match k with
  | EmptyString => EmptyString
  | String c k' =>
      if contains "." k' then String c (rsplit1_head k')
      else if (c =? ".")%char then EmptyString
      else k
  end.

Fixpoint all_chars (p : ascii -> bool) (s : string) : bool :=
  match s with
  | EmptyString => true
  | String c s' => p c && all_chars p s'
  end.

Fixpoint any_char (p : ascii -> bool) (s : string) : bool :=
  match s with
  | EmptyString => false
  | String c s' => p c || any_char p s'
  end.

(** [s.isdigit()]: at least one character, all of them digits. *)
Definition isdigit (s : string) : bool := nonempty s && all_chars is_digit s.

Definition digit_value (c : ascii) : Z := Z.of_N (code c) - 48.

Fixpoint int_digits (acc : Z) (s : string) : Z :=
  match s with
  | EmptyString => acc
  | String c s' => int_digits (10 * acc + digit_value c) s'
  end.

(** The number a string of digits writes. *)
Definition digits_value (s : string) : Z := int_digits 0 s.

(** [sys.int_max_str_digits], at its default. *)
Definition INT_MAX_STR_DIGITS : Z := 4300.

(** [int(s)] for a string of digits, the only strings the program converts:
    the number it writes, leading zeros and all, and a [ValueError] when it
    has more digits than the limit. *)
Definition int (s : string) : outcome Z :=
  if (INT_MAX_STR_DIGITS <? Z.of_nat (String.length s))%Z
  then Raise ValueError
  else Return (digits_value s).

(** [str(n)] for an [int] and for an index of [enumerate]. *)
Definition str_int (n : Z) : string := NilEmpty.string_of_int (Z.to_int n).
Definition str_nat (n : nat) : string := NilEmpty.string_of_uint (Nat.to_uint n).

End PyStr.

Import PyStr.

(* ===================================================================== *)
(** ** JSON values, scalars and dicts *)
(* ===================================================================== *)

(** A Python [float]: zero, infinity, NaN, or a mantissa and an exponent
    of two with a sign. *)
Definition float : Type := spec_float.

(** What [json.loads] puts at a leaf. *)
Inductive scalar : Type :=
| SNone
| SBool (b : bool)
| SInt (n : Z)
| SFloat (f : float)
| SStr (s : string).

(** A decoded block: nested mappings, sequences and scalars. *)
#[local] Unset Elimination Schemes.
Inductive json : Type :=
| JScalar (v : scalar)
| JList (l : list json)
| JDict (items : list (string * json)).
#[local] Set Elimination Schemes.

(** A [dict] with string keys, in insertion order. *)
Definition dict (V : Type) : Type := list (string * V).

Section Dict.
Context {V : Type}.

Fixpoint dict_get (d : dict V) (k : string) : option V :=
  match d with
  | [] => None
  | (k', v) :: d' => if String.eqb k' k then Some v else dict_get d' k
  end.

(** [d[k] = v] *)
Fixpoint dict_set (d : dict V) (k : string) (v : V) : dict V :=
  match d with
  | [] => [(k, v)]
  | (k', v') :: d' =>
      if String.eqb k' k then (k', v) :: d' else (k', v') :: dict_set d' k v
  end.

(** [d.update(other)] *)
Definition dict_update (d other : dict V) : dict V :=
  fold_left (fun acc kv => dict_set acc (fst kv) (snd kv)) other d.

Definition keys (d : dict V) : list string := map fst d.
Definition values (d : dict V) : list V := map snd d.

(** Python keeps the keys of a dict distinct. *)
Definition dict_ok (d : dict V) : Prop := NoDup (keys d).

(** [a == b] for dicts, given [==] on the values: the same number of
    keys, and every key of [a] is in [b] with an equal value. *)
Definition dict_eqb (veq : V -> V -> bool) (a b : dict V) : bool :=
  Nat.eqb (List.length a) (List.length b) &&
  forallb (fun kv =>
             match dict_get b (fst kv) with
             | Some v' => veq (snd kv) v'
             | None => false
             end) a.
End Dict.

(** [for i, v in enumerate(l)], threading an accumulator. *)
Section Enumerate.
Context {A B : Type} (f : B -> nat -> A -> B).

Fixpoint fold_enumerate (l : list A) (i : nat) (acc : B) : B :=
  match l with
  | [] => acc
  | x :: l' => fold_enumerate l' (S i) (f acc i x)
  end.
End Enumerate.

(** *** Equality of scalars, as Python's [==] has it *)

(** [float == int]: the float is finite and its exact value is the integer. *)
Definition float_eq_int (f : float) (n : Z) : bool :=
  match f with
  | S754_zero _ => (n =? 0)%Z
  | S754_finite s m e =>
      let v := if s then Z.neg m else Z.pos m in
      if (0 <=? e)%Z then (n =? v * 2 ^ e)%Z else (v =? n * 2 ^ (- e))%Z
  | _ => false
  end.

Definition is_nan (f : float) : bool :=
  match f with S754_nan => true | _ => false end.

(** Every [NaN] that [json.loads] returns is the one object [json.decoder.NaN],
    and the comparison of dict values tries identity first. *)
Definition float_eq (f g : float) : bool :=
  SFeqb f g || (is_nan f && is_nan g).

Definition int_of_bool (b : bool) : Z := if b then 1%Z else 0%Z.

Definition scalar_eqb (x y : scalar) : bool :=
  match x, y with
  | SNone, SNone => true
  | SStr s, SStr s' => String.eqb s s'
  | SBool b, SBool b' => Bool.eqb b b'
  | SBool b, SInt n | SInt n, SBool b => (int_of_bool b =? n)%Z
  | SInt n, SInt n' => (n =? n')%Z
  | SFloat f, SFloat g => float_eq f g
  | SFloat f, SInt n | SInt n, SFloat f => float_eq_int f n
  | SFloat f, SBool b | SBool b, SFloat f => float_eq_int f (int_of_bool b)
  | _, _ => false
  end.

(** [isinstance(v, (str, int, float, bool))] *)
Definition is_plain (v : scalar) : bool :=
  match v with SNone => false | _ => true end.

(* ===================================================================== *)
(** ** The flattener *)
(* ===================================================================== *)

(** [f"{prefix}.{k}" if prefix else str(k)] *)
Definition dict_key (prefix k : string) : string :=
  if nonempty prefix then prefix ++ "." ++ k else k.

(** [f"{prefix}[{i}]" if prefix else f"[{i}]"] *)
Definition list_key (prefix : string) (i : nat) : string :=
  if nonempty prefix then prefix ++ "[" ++ str_nat i ++ "]"
  else "[" ++ str_nat i ++ "]".

Fixpoint _flatten (d : json) (prefix : string) : dict scalar :=
  match d with
  | JDict items =>
      fold_left
        (fun out kv => let '(k, v) := kv in
                       dict_update out (_flatten v (dict_key prefix k)))
        items []
  | JList l =>
      fold_enumerate
        (fun out i v => dict_update out (_flatten v (list_key prefix i)))
        l 0 []
  | JScalar v => [(prefix, v)]
  end.

(* ===================================================================== *)
(** ** The record correlator *)
(* ===================================================================== *)

Definition record : Type := dict scalar.

Definition SIZE_KEY_TOKENS : list string :=
  ["size"; "variant"; "sku"; "label"; "name"].

(** [k.rsplit(".", 1)[0]] when [k] has a dot, the empty string otherwise. *)
Definition parent_of (k : string) : string :=
  if contains "." k then rsplit1_head k else EmptyString.

(** [{kk: vv for kk, vv in flat.items() if parent and kk.startswith(parent)}] *)
Definition cluster (flat : record) (parent : string) : record :=
  filter (fun kv => nonempty parent && startswith (fst kv) parent) flat.

(** [record in recs] *)
Definition record_in (r : record) (recs : list record) : bool :=
  existsb (fun r' => dict_eqb scalar_eqb r' r) recs.

(** The test that makes an entry of the flat record start a cluster. *)
Definition is_trigger (k : string) (v : scalar) : bool :=
  is_plain v && any_in SIZE_KEY_TOKENS (lower k).

(** One turn of the inner loop, over the entry [(k, v)] of [flat]. *)
Definition record_step (flat : record) (recs : list record)
    (kv : string * scalar) : list record :=
  let '(k, v) := kv in
  if negb (is_plain v) then recs
  else if any_in SIZE_KEY_TOKENS (lower k) then
    let rec := cluster flat (parent_of k) in
    match rec with
    | [] => recs
    | _ :: _ => if record_in rec recs then recs else recs ++ [rec]
    end
  else recs.

Definition _find_size_records (blocks : list json) : list record :=
  fold_left
    (fun recs b => let flat := _flatten b EmptyString in
                   fold_left (record_step flat) flat recs)
    blocks [].

(* ===================================================================== *)
(** ** Regular expressions, as far as the program uses them *)
(* ===================================================================== *)

Module Re.

(** The patterns of the program are built from literal text (every pattern
    is compiled with [re.IGNORECASE]), a character class under [*], the word
    boundary, sequence and alternation. *)
Inductive regex : Type :=
| Lit (w : string)
| Star (p : ascii -> bool)
| WordB
| Seq (r1 r2 : regex)
| Alt (r1 r2 : regex).

(** A position in the subject: the character before it, if any, and the
    text from it on. *)
Definition cursor : Type := (option ascii * string)%type.

Definition word_before (prev : option ascii) : bool :=
  match prev with Some c => is_word c | None => false end.

Definition word_after (s : string) : bool :=
  match s with String c _ => is_word c | EmptyString => false end.

(** [\b]: a word character on exactly one side. *)
Definition at_boundary (cur : cursor) : bool :=
  xorb (word_before (fst cur)) (word_after (snd cur)).

(** Literal text at the cursor, compared without case. *)
Fixpoint match_lit (w : string) (cur : cursor) : list cursor :=
  match w with
  | EmptyString => [cur]
  | String a w' =>
      match snd cur with
      | String c s' =>
          if (lower_char a =? lower_char c)%char
          then match_lit w' (Some c, s') else []
      | EmptyString => []
      end
  end.

(** Every cursor reached by taking zero or more characters of the class. *)
Fixpoint match_star (p : ascii -> bool) (prev : option ascii) (s : string)
  : list cursor :=
  (prev, s) ::
  match s with
  | String c s' => if p c then match_star p (Some c) s' else []
  | EmptyString => []
  end.

(** Every cursor at which a match of [r] that starts at [cur] can end. *)
Fixpoint rmatch (r : regex) (cur : cursor) : list cursor :=
  match r with
  | Lit w => match_lit w cur
  | Star p => match_star p (fst cur) (snd cur)
  | WordB => if at_boundary cur then [cur] else []
  | Seq r1 r2 => flat_map (rmatch r2) (rmatch r1 cur)
  | Alt r1 r2 => rmatch r1 cur ++ rmatch r2 cur
  end.

Definition matches_at (r : regex) (cur : cursor) : bool :=
  match rmatch r cur with [] => false | _ :: _ => true end.

(** The match is tried at every position, from the left. *)
Fixpoint search_from (r : regex) (prev : option ascii) (s : string) : bool :=
  matches_at r (prev, s) ||
  match s with
  | String c s' => search_from r (Some c) s'
  | EmptyString => false
  end.

(** [re.search(r, s, re.IGNORECASE)] as a truth value. *)
Definition search (r : regex) (s : string) : bool := search_from r None s.

Declare Scope re_scope.
Delimit Scope re_scope with re.
Bind Scope re_scope with regex.
Infix "<|>" := Alt (at level 65, right associativity) : re_scope.
Infix "++" := Seq (right associativity, at level 60) : re_scope.

End Re.

Import Re.

(* ===================================================================== *)
(** ** The availability interpreter *)
(* ===================================================================== *)

Definition TRUTHY : list string :=
  ["true"; "in stock"; "instock"; "available"; "yes"; "in_stock"; "in-stock";
   "availableforpurchase"; "ok"].

Definition FALSY : list string :=
  ["false"; "out of stock"; "outofstock"; "unavailable"; "no"; "soldout";
   "sold out"; "notavailable"].

(** [in\s*stock|available|ok|true] *)
Definition TRUTHY_RE : regex :=
  (Lit "in" ++ Star is_space ++ Lit "stock"
   <|> Lit "available" <|> Lit "ok" <|> Lit "true")%re.

(** [out\s*of\s*stock|sold\s*out|unavailable|false] *)
Definition FALSY_RE : regex :=
  (Lit "out" ++ Star is_space ++ Lit "of" ++ Star is_space ++ Lit "stock"
   <|> Lit "sold" ++ Star is_space ++ Lit "out"
   <|> Lit "unavailable" <|> Lit "false")%re.

(** [rf"\b{re.escape(t)}\b"] *)
Definition whole_word (t : string) : regex := (WordB ++ Lit t ++ WordB)%re.

Definition SIZE_FIELD_TOKENS : list string :=
  ["size"; "label"; "variant"; "name"].

Definition AVAIL_FIELD_TOKENS : list string :=
  ["avail"; "in_stock"; "instock"; "stock"; "isavailable"; "inventory";
   "availabilitystatus"; "status"].

Definition QTY_FIELD_TOKENS : list string := ["qty"; "quantity"].

(** [[v for k, v in fields.items() if any(s in k for s in toks)]] *)
Definition values_where (toks : list string) (fields : dict string)
  : list string :=
  values (filter (fun kv => any_in toks (fst kv)) fields).

(** [t == sv.lower() or re.search(rf"\b{re.escape(t)}\b", sv, re.IGNORECASE)] *)
Definition size_value_matches (t sv : string) : bool :=
  String.eqb t (lower sv) || search (whole_word t) sv.

(** [str(q).isdigit() and int(q) > 0]: [int] is not called on a string
    that [isdigit] turns down. *)
Definition positive_quantity (q : string) : outcome bool :=
  if isdigit q then n <- int q ;; Return (0 <? n)%Z else Return false.

(** The loop over [qty_values]. *)
Fixpoint qty_signal (qs : list string) : outcome (option (bool * string)) :=
  match qs with
  | [] => Return None
  | q :: qs' =>
      p <- positive_quantity q ;;
      if p then Return (Some (true, "quantity=" ++ q)) else qty_signal qs'
  end.

Definition truthy_text (lav : string) : bool :=
  member lav TRUTHY || search TRUTHY_RE lav.

Definition falsy_text (lav : string) : bool :=
  member lav FALSY || search FALSY_RE lav.

(** The loop over [avail_values]. *)
Fixpoint avail_signal (avs : list string) : option (bool * string) :=
  match avs with
  | [] => None
  | av :: avs' =>
      let lav := lower av in
      if truthy_text lav then Some (true, av)
      else if falsy_text lav then Some (false, av)
      else avail_signal avs'
  end.

Section Interpreter.
(** [str(f)] for a float [f]. *)
Variable float_str : float -> string.

(** [str(v)] *)
Definition str (v : scalar) : string :=
  match v with
  | SNone => "None"
  | SBool true => "True"
  | SBool false => "False"
  | SInt n => str_int n
  | SFloat f => float_str f
  | SStr s => s
  end.

(** [{k.lower(): str(v).strip() for k, v in rec.items()
      if isinstance(v, (str, int, float, bool))}] *)
Definition fields (rec : record) : dict string :=
  fold_left
    (fun acc kv => let '(k, v) := kv in
                   if is_plain v then dict_set acc (lower k) (strip (str v))
                   else acc)
    rec [].

Definition size_match (t : string) (rec : record) : bool :=
  existsb (size_value_matches t) (values_where SIZE_FIELD_TOKENS (fields rec)).

(** The body of the loop over [records]: [Some] when it returns, [None]
    when it goes on to the next record. *)
Definition interpret_record (t : string) (rec : record)
  : outcome (option (bool * string)) :=
  if negb (size_match t rec) then Return None
  else
    r <- qty_signal (values_where QTY_FIELD_TOKENS (fields rec)) ;;
    match r with
    | Some d => Return (Some d)
    | None =>
        Return (avail_signal (values_where AVAIL_FIELD_TOKENS (fields rec)))
    end.

Fixpoint interpret_records (t : string) (records : list record)
  : outcome (option (bool * string)) :=
  match records with
  | [] => Return None
  | rec :: rest =>
      r <- interpret_record t rec ;;
      match r with
      | Some d => Return (Some d)
      | None => interpret_records t rest
      end
  end.

Definition _interpret_availability (records : list record)
    (target_size : string) : outcome (option (bool * string)) :=
  let t := lower (strip target_size) in
  interpret_records t records.
End Interpreter.

(* ===================================================================== *)
(** ** The page, as the program reads it through BeautifulSoup *)
(* ===================================================================== *)

Record soup : Type := {
  (** [tag.get_text(strip=True)] of every
      [<script type="application/ld+json">], in document order *)
  ld_json_scripts : list string;
  (** [tag.string or tag.get_text()] of every [<script>], empty when both
      are empty *)
  scripts : list string;
  (** [soup.get_text(" ", strip=True)] *)
  page_text : string
}.

(* ===================================================================== *)
(** ** The text fallback *)
(* ===================================================================== *)

Definition not_newline (c : ascii) : bool := negb (c =? "010")%char.

(** [[-–—:]?]: a hyphen, an en dash, an em dash, a colon, or nothing. *)
Definition SEPARATOR : regex :=
  (Lit "-" <|> Lit "–" <|> Lit "—" <|> Lit ":" <|> Lit EmptyString)%re.

Definition OUT_PHRASES : regex :=
  (Lit "out of stock" <|> Lit "sold out" <|> Lit "unavailable")%re.

Definition IN_PHRASES : regex :=
  (Lit "add to bag" <|> Lit "add to cart" <|> Lit "in stock"
   <|> Lit "available")%re.

Definition ADD_PHRASES : regex := (Lit "add to bag" <|> Lit "add to cart")%re.

(** [rf"\b{re.escape(t)}\b\s*[-–—:]?\s*(out of stock|sold out|unavailable)"] *)
Definition size_then_out (t : string) : regex :=
  (WordB ++ Lit t ++ WordB ++ Star is_space ++ SEPARATOR
   ++ Star is_space ++ OUT_PHRASES)%re.

(** [rf"\b{re.escape(t)}\b.*(add to bag|add to cart|in stock|available)"] *)
Definition size_then_in (t : string) : regex :=
  (WordB ++ Lit t ++ WordB ++ Star not_newline ++ IN_PHRASES)%re.

Definition _fallback_text (sp : soup) (target_size : string)
  : option (bool * string) :=
  let t := lower (strip target_size) in
  let text := lower (page_text sp) in
  if search (size_then_out t) text then Some (false, "text: out of stock")
  else if search (size_then_in t) text then Some (true, "text: likely in stock")
  else if search ADD_PHRASES text then Some (true, "text: add to bag found")
  else if search OUT_PHRASES text then Some (false, "text: global out of stock")
  else None.

(* ===================================================================== *)
(** ** The structured-block extractor *)
(* ===================================================================== *)

Definition is_dict (d : json) : bool :=
  match d with JDict _ => true | _ => false end.

(** What one decoded JSON-LD script adds to [blocks]. *)
Definition ld_blocks (data : json) : list json :=
  match data with
  | JList l => filter is_dict l
  | JDict _ => [data]
  | JScalar _ => []
  end.

(** [(availability|inStock|availabilityStatus|offers|variants|sku|size|inventory)] *)
Definition KEYWORDS : regex :=
  (Lit "availability" <|> Lit "inStock" <|> Lit "availabilityStatus"
   <|> Lit "offers" <|> Lit "variants" <|> Lit "sku" <|> Lit "size"
   <|> Lit "inventory")%re.

(** From inside a brace group opened [depth] times, the text up to and
    with the brace that closes it, and the text after. *)
Fixpoint close_brace (depth : nat) (s : string) : option (string * string) :=
  match s with
  | EmptyString => None
  | String c s' =>
      if (c =? "{")%char then
        match close_brace (S depth) s' with
        | Some (body, rest) => Some (String c body, rest)
        | None => None
        end
      else if (c =? "}")%char then
        match depth with
        | O => Some (String c EmptyString, s')
        | S d =>
            match close_brace d s' with
            | Some (body, rest) => Some (String c body, rest)
            | None => None
            end
        end
      else
        match close_brace depth s' with
        | Some (body, rest) => Some (String c body, rest)
        | None => None
        end
  end.

(** [pattern.finditer(txt)] for the pattern of balanced braces
    [(?P<json>\{(?:[^{}]|(?P>json))*\})]: the balanced groups from left to
    right, none inside another. The fuel bounds the number of steps; the
    length of the text is enough. *)
Fixpoint balanced_from (fuel : nat) (s : string) : list string :=
  match fuel with
  | O => []
  | S fuel' =>
      match s with
      | EmptyString => []
      | String c s' =>
          if (c =? "{")%char then
            match close_brace 0 s' with
            | Some (body, rest) => String c body :: balanced_from fuel' rest
            | None => balanced_from fuel' s'
            end
          else balanced_from fuel' s'
      end
  end.

Definition finditer_json (txt : string) : list string :=
  balanced_from (String.length txt) txt.

(** [js.replace], every single quote into a double quote. *)
Fixpoint coerce_quotes (s : string) : string :=
  match s with
  | EmptyString => EmptyString
  | String c s' =>
      String (if (c =? "'")%char then "034"%char else c) (coerce_quotes s')
  end.

Section Extractor.
(** [json.loads]: [None] when it raises. *)
Variable json_loads : string -> option json.
(** Whether the [regex] package was imported. *)
Variable _HAS_REGEX : bool.

Definition _json_blocks_from_ld (sp : soup) : list json :=
  fold_left
    (fun blocks txt =>
       match json_loads txt with
       | Some data => (blocks ++ ld_blocks data)%list
       | None => blocks
       end)
    (ld_json_scripts sp) [].

(** One match of the brace pattern inside a script. *)
Definition inline_chunk (blocks : list json) (js : string) : list json :=
  if negb (search KEYWORDS js) then blocks
  else
    match json_loads js with
    | Some data => blocks ++ [data]
    | None =>
        match json_loads (coerce_quotes js) with
        | Some data => blocks ++ [data]
        | None => blocks
        end
    end.

Definition _json_blocks_from_inline_scripts (sp : soup) : list json :=
  if negb _HAS_REGEX then []
  else
    fold_left
      (fun blocks txt =>
         if negb (nonempty txt) || negb (contains "{" txt) then blocks
         else if negb (search KEYWORDS txt) then blocks
         else fold_left inline_chunk (finditer_json txt) blocks)
      (scripts sp) [].
End Extractor.

(* ===================================================================== *)
(** ** The orchestrator *)
(* ===================================================================== *)

Section Orchestrator.
Variable float_str : float -> string.
Variable json_loads : string -> option json.
Variable _HAS_REGEX : bool.
(** [fetch(url)]: the text of the page, empty on any failure. *)
Variable fetch : string -> string.
(** [BeautifulSoup(html, "html.parser")] *)
Variable BeautifulSoup : string -> soup.

(** Step 1 of [check_once]: the decision of the JSON path, if any. *)
Definition structured_path (sp : soup) (target_size : string)
  : outcome (option (bool * string)) :=
  let blocks := (_json_blocks_from_ld json_loads sp
                 ++ _json_blocks_from_inline_scripts json_loads _HAS_REGEX sp)%list in
  match blocks with
  | [] => Return None
  | _ :: _ =>
      _interpret_availability float_str (_find_size_records blocks) target_size
  end.

(** The verdict is [Some true] (in stock), [Some false] (out of stock) or
    [None]; [debug] only prints and is left out. An exception of the
    interpreter is not caught here. *)
Definition check_once (url target_size : string)
  : outcome (option bool * string) :=
  let html := fetch url in
  if negb (nonempty html) then Return (None, "fetch failed")
  else
    let sp := BeautifulSoup html in
    res <- structured_path sp target_size ;;
    match res with
    | Some (ok, detail) => Return (Some ok, detail)
    | None =>
        match _fallback_text sp target_size with
        | Some (ok, detail) => Return (Some ok, detail)
        | None => Return (None, "could not determine")
        end
    end.
End Orchestrator.

(* ===================================================================== *)
(** ** Notions used to state the properties *)
(* ===================================================================== *)

(** *** Traversal paths of a block *)

(** One step down a block: into the value of a key, or into an element. *)
Inductive step : Type :=
| Key (k : string)
| Idx (i : nat).

(** A traversal path, from the root down. *)
Definition path : Type := list step.

Definition under (s : step) (pv : path * scalar) : path * scalar :=
  (s :: fst pv, snd pv).

Section FlatMapI.
Context {A B : Type} (f : nat -> A -> list B).

Fixpoint flat_mapi (l : list A) (i : nat) : list B :=
  match l with
  | [] => []
  | x :: l' => (f i x ++ flat_mapi l' (S i))%list
  end.
End FlatMapI.

(** The scalars of a block with the path that leads to each, depth first. *)
Fixpoint leaves (d : json) : list (path * scalar) :=
  match d with
  | JScalar v => [([], v)]
  | JList l => flat_mapi (fun i v => map (under (Idx i)) (leaves v)) l 0
  | JDict items =>
      flat_map (fun kv => let '(k, v) := kv in map (under (Key k)) (leaves v))
               items
  end.

(** The path string the flattener builds along a traversal path. *)
Fixpoint path_string (prefix : string) (p : path) : string :=
  match p with
  | [] => prefix
  | Key k :: p' => path_string (dict_key prefix k) p'
  | Idx i :: p' => path_string (list_key prefix i) p'
  end.

(** What the flattener writes, one entry per traversal path. *)
Definition writes (d : json) (prefix : string) : dict scalar :=
  map (fun pv => (path_string prefix (fst pv), snd pv)) (leaves d).

(** The characters that the flattener puts between the parts of a path. *)
Definition is_joint (c : ascii) : bool := (c =? ".")%char || (c =? "[")%char.

(** A key that cannot be taken for more than one part of a path. *)
Definition plain_key (k : string) : bool :=
  nonempty k && negb (any_char is_joint k).

Fixpoint distinct (l : list string) : bool :=
  match l with
  | [] => true
  | k :: l' => negb (existsb (String.eqb k) l') && distinct l'
  end.

(** A test on the keys of every mapping of a block. *)
Fixpoint every_dict (P : list string -> bool) (d : json) : bool :=
  match d with
  | JScalar _ => true
  | JList l => forallb (every_dict P) l
  | JDict items =>
      P (map fst items)
      && forallb (fun kv => let '(_, v) := kv in every_dict P v) items
  end.

(** The keys of every mapping are distinct, as the decoder leaves them. *)
Definition json_ok (d : json) : bool := every_dict distinct d.

(** Every key of every mapping is a [plain_key]. *)
Definition plain_keys (d : json) : bool := every_dict (forallb plain_key) d.

(** One step of a path, as the flattener spells it after a prefix. *)
Definition step_key (prefix : string) (s : step) : string :=
  match s with
  | Key k => dict_key prefix k
  | Idx i => list_key prefix i
  end.

Definition plain_step (s : step) : Prop :=
  match s with
  | Key k => plain_key k = true
  | Idx _ => True
  end.

Definition plain_path (p : path) : Prop := Forall plain_step p.

(** What a step adds to a path string after a non-empty prefix: the joint
    and the text after it. *)
Definition token (s : step) : ascii * string :=
  match s with
  | Key k => ("."%char, k)
  | Idx i => ("["%char, str_nat i ++ "]")
  end.

(** A flat mapping, as a block. *)
Definition as_block (d : dict scalar) : json :=
  JDict (map (fun kv => (fst kv, JScalar (snd kv))) d).

(** *** The extractor and the interpreter, entry by entry *)

(** What one JSON-LD script contributes: the blocks of its text when it
    decodes, nothing when the decoder raises. *)
Definition script_blocks (json_loads : string -> option json) (txt : string)
  : list json :=
  match json_loads txt with
  | Some data => ld_blocks data
  | None => []
  end.

(** The page with other JSON-LD scripts. *)
Definition with_ld_scripts (sp : soup) (l : list string) : soup :=
  {| ld_json_scripts := l; scripts := scripts sp; page_text := page_text sp |}.

(** An entry as the interpreter reads it: the key lower-cased, the value
    as trimmed text. *)
Definition field_of (float_str : float -> string) (kv : string * scalar)
  : string * string :=
  (lower (fst kv), strip (str float_str (snd kv))).

Definition plain_entries (rec : record) : record :=
  filter (fun kv => is_plain (snd kv)) rec.

(** *** Whole-word occurrences *)

(** The character before a position that lies [mid] after a position whose
    previous character is [prev]. *)
Fixpoint last_char (prev : option ascii) (mid : string) : option ascii :=
  match mid with
  | EmptyString => prev
  | String c mid' => last_char (Some c) mid'
  end.

(** A word boundary between the text [l] and the text [r] that follows it. *)
Definition boundary (l r : string) : bool :=
  xorb (word_before (last_char None l)) (word_after r).

(** [t] stands in [sv], case apart, with a word boundary on each side. *)
Definition whole_word_in (t sv : string) : Prop :=
  exists pre mid post,
    sv = pre ++ mid ++ post /\ lower mid = lower t /\
    boundary pre (mid ++ post) = true /\ boundary (pre ++ mid) post = true.

(** *** Literal text a match must hold *)

(** A list of phrases of which every match of the pattern holds one;
    [None] when the pattern promises none. *)
Fixpoint required (r : regex) : option (list string) :=
  match r with
  | Lit w => Some [w]
  | Star _ | WordB => None
  | Seq r1 r2 =>
      match required r2 with
      | Some ws => Some ws
      | None => required r1
      end
  | Alt r1 r2 =>
      match required r1, required r2 with
      | Some ws1, Some ws2 => Some (ws1 ++ ws2)%list
      | _, _ => None
      end
  end.

(** The phrases the text fallback knows. *)
Definition KNOWN_PHRASES : list string :=
  ["out of stock"; "sold out"; "unavailable"; "add to bag"; "add to cart";
   "in stock"; "available"].

(** None of the phrases is in the text, case apart. *)
Definition no_known_phrase (text : string) : bool :=
  negb (any_in KNOWN_PHRASES (lower text)).

(** *** The trigger of the correlator, read on the last segment only *)

(** [k.rsplit(".", 1)[-1]]: the text after the last dot. *)
Fixpoint final_segment (k : string) : string :=
  match k with
  | EmptyString => EmptyString
  | String c k' =>
      if contains "." k' then final_segment k'
      else if (c =? ".")%char then k'
      else k
  end.

Definition final_segment_trigger (k : string) (v : scalar) : bool :=
  is_plain v && any_in SIZE_KEY_TOKENS (lower (final_segment k)).

(** What the trigger entry [(k, v)] of [flat] adds to the records. *)
Definition add_record (recs : list record) (rec : record) : list record :=
  match rec with
  | [] => recs
  | _ :: _ => if record_in rec recs then recs else (recs ++ [rec])%list
  end.

(** *** The falsy tokens the truthy pattern does not take first *)

Definition FALSY_REACHED : list string :=
  ["false"; "out of stock"; "outofstock"; "no"; "soldout"; "sold out"].

(** *** Worked examples: the parameters *)

Definition float_str_const (f : float) : string := "nan".

(** A decoder that knows two texts and rejects the rest. *)
Definition json_loads_two (txt : string) : option json :=
  if String.eqb txt "{}" then Some (JDict [])
  else if String.eqb txt "[{}]" then Some (JList [JDict []])
  else None.

Definition plain_page (text : string) : soup :=
  {| ld_json_scripts := []; scripts := []; page_text := text |}.

Definition fetch_const (url : string) : string := "<html><p>hello</p></html>".

Definition soup_const (html : string) : soup := plain_page "hello world".

(** *** Worked examples: records *)

Definition rec_quantity_5 : record :=
  [("v.size", SStr "M"); ("v.quantity", SStr "5");
   ("v.availability", SStr "out of stock")].

Definition rec_status (size status : string) : record :=
  [("v.size", SStr size); ("v.availability", SStr status)].

(** *** Worked examples: blocks *)

(** A nested key and a dotted key that spell the same path. *)
Definition colliding_block : json :=
  JDict [("a", JDict [("b", JScalar (SInt 1))]); ("a.b", JScalar (SInt 2))].

Definition offers_block : json :=
  JDict [("offers",
          JList [JDict [("size", JScalar (SStr "Large"));
                        ("availability", JScalar (SStr "InStock"))]])].

Definition flat_example : dict scalar :=
  [("offers[0].size", SStr "Large"); ("offers[0].availability", SStr "InStock")].

(** A token in an earlier segment of the path only. *)
Definition size_value_block : json :=
  JDict [("size", JDict [("value", JScalar (SStr "L"))])].

(** A token in the last segment, over a null. *)
Definition null_size_block : json :=
  JDict [("a", JDict [("size", JScalar SNone); ("stock", JScalar (SInt 1))])].

(** Scenario B of the specification. *)
Definition variants_block : json :=
  JDict [("variants",
          JList [JDict [("name", JScalar (SStr "Medium"));
                        ("inventory_quantity", JScalar (SInt 0))];
                 JDict [("name", JScalar (SStr "Large"));
                        ("inventory_quantity", JScalar (SInt 3))]])].

(** A product described by the top-level keys of its block. *)
Definition top_level_block : json :=
  JDict [("name", JScalar (SStr "Tee")); ("size", JScalar (SStr "L"));
         ("availability", JScalar (SStr "InStock"))].

(** A record with signals and no size-like key. *)
Definition rec_no_size : record :=
  [("v.quantity", SStr "4"); ("v.availability", SStr "in stock")].

(** The phrases the truthy pattern finds anywhere in a value. *)
Definition TRUTHY_PHRASES : list string :=
  ["in stock"; "instock"; "available"; "ok"; "true"].

(** The cues the text fallback takes from anywhere on the page. *)
Definition GENERIC_CUES : list string :=
  ["add to bag"; "add to cart"; "out of stock"; "sold out"; "unavailable"].

Definition OUT_CUES : list string :=
  ["out of stock"; "sold out"; "unavailable"].

Definition IN_CUES : list string :=
  ["add to bag"; "add to cart"; "in stock"; "available"].

Definition ADD_CUES : list string := ["add to bag"; "add to cart"].

(* ===================================================================== *)
(** ** Fetching, notifying and the command line *)
(* ===================================================================== *)

(** What [requests.get] gives: an exception, or a response with its status
    code and its text. *)
Inductive http_result : Type :=
| HttpRaised
| HttpResponse (status : Z) (text : string).

(** [r.raise_for_status()] raises on the codes 400 to 599. *)
Definition raises_for_status (status : Z) : bool :=
  ((400 <=? status) && (status <? 600))%Z.

(** [fetch(url)]: the text of the response, the empty string when the
    request or the status check raises. *)
Definition fetch (http_get : string -> http_result) (url : string) : string :=
  match http_get url with
  | HttpRaised => EmptyString
  | HttpResponse status text =>
      if raises_for_status status then EmptyString else text
  end.

(** What a run does to the outside: a line on the console, a request to
    the webhook. The warnings on the error stream are left out. *)
Inductive effect : Type :=
| Print (msg : string)
| Post (webhook : string) (payload : dict string).

(** [notify(webhook, message)]; a failure of the request is swallowed. *)
Definition notify (webhook message : string) : list effect :=
  if negb (nonempty webhook) then []
  else [Post webhook [("content", message); ("text", message);
                      ("username", "GAP Stock Monitor")]].

(** The parsed command line. *)
Record Args : Type := {
  url : string;
  size : string;
  webhook : option string;
  quiet : bool;
  always_notify : bool;
  debug : bool
}.

Definition newline : string := String "010" EmptyString.

(** The three messages of [main]; the signs at their head are carried as
    their UTF-8 bytes. *)
Definition msg_unknown (args : Args) (detail : string) : string :=
  "⚠️ Could not determine stock for " ++ size args ++ " (" ++ detail ++ ")"
  ++ newline ++ url args.

Definition msg_in_stock (args : Args) (detail : string) : string :=
  "✅ Size " ++ size args ++ " appears IN STOCK (" ++ detail ++ ")"
  ++ newline ++ url args.

Definition msg_out_of_stock (args : Args) (detail : string) : string :=
  "❌ Size " ++ size args ++ " appears OUT OF STOCK (" ++ detail ++ ")"
  ++ newline ++ url args.

(** [ok is True or ok is None] *)
Definition worth_telling (ok : option bool) : bool :=
  match ok with
  | Some true | None => true
  | Some false => false
  end.

Section Main.
Variable float_str : float -> string.
Variable json_loads : string -> option json.
Variable _HAS_REGEX : bool.
Variable http_get : string -> http_result.
Variable BeautifulSoup : string -> soup.

(** [main()], from the parsed arguments on: what it does, and what it
    returns. An exception of [check_once] goes up before anything is
    printed or sent. *)
Definition main (args : Args) : outcome (list effect * Z) :=
  res <- check_once float_str json_loads _HAS_REGEX (fetch http_get)
                    BeautifulSoup (url args) (size args) ;;
  let '(ok, detail) := res in
  let msg :=
    match ok with
    | Some true => msg_in_stock args detail
    | Some false => msg_out_of_stock args detail
    | None => msg_unknown args detail
    end in
  let printed :=
    if always_notify args || negb (quiet args) || worth_telling ok
    then [Print msg] else [] in
  let posted :=
    match webhook args with
    | Some w =>
        if nonempty w && (always_notify args || worth_telling ok)
        then notify w msg else []
    | None => []
    end in
  Return ((printed ++ posted)%list, 0%Z).
End Main.

(** *** Balanced braces *)

(** The opening braces of a text less its closing ones. *)
Fixpoint brace_balance (s : string) : Z :=
  match s with
  | EmptyString => 0%Z
  | String c s' =>
      ((if (c =? "{")%char then 1 else if (c =? "}")%char then -1 else 0)
       + brace_balance s')%Z
  end.

(** *** Worked examples: a run *)

Definition http_down (u : string) : http_result := HttpRaised.

Definition http_not_found (u : string) : http_result :=
  HttpResponse 404 "<html>Not Found</html>".

Definition args_quiet : Args :=
  {| url := "https://shop.example/p1"; size := "M";
     webhook := Some "https://hooks.example/x"; quiet := true;
     always_notify := false; debug := false |}.

Definition soup_sold_out (html : string) : soup :=
  plain_page "Size M - Sold Out".

Definition http_page (u : string) : http_result :=
  HttpResponse 200 "<html>Size M - Sold Out</html>".

(* ===================================================================== *)
(** ** A record, entry by entry *)
(* ===================================================================== *)


(** The entry [(k, v)] of [rec] is one the interpreter reads: its value is
    not null, and no later entry with a value that is not null has the same
    key, letter case apart. Such a later entry would take its place. *)
Definition read_entry (rec : record) (k : string) (v : scalar) : Prop :=
  is_plain v = true /\
  exists r1 r2,
    rec = (r1 ++ (k, v) :: r2)%list /\
    forall k' v', In (k', v') r2 -> is_plain v' = true -> lower k' <> lower k.

(** No white space at either end. *)
Definition trimmed (s : string) : bool :=
  match s with
  | EmptyString => true
  | String c _ =>
      negb (is_space c)
      && match last_char None s with
         | Some d => negb (is_space d)
         | None => true
         end
  end.

(** What the quantities of a record say and, when they say nothing, its
    availability-like values. *)
Definition record_signals (float_str : float -> string) (rec : record)
  : outcome (option (bool * string)) :=
  r <- qty_signal (values_where QTY_FIELD_TOKENS (fields float_str rec)) ;;
  match r with
  | Some d => Return (Some d)
  | None =>
      Return (avail_signal
                (values_where AVAIL_FIELD_TOKENS (fields float_str rec)))
  end.



(** A run of [n] times the digit 1. *)
Fixpoint ones (n : nat) : string :=
  match n with
  | O => EmptyString
  | S n' => String "1" (ones n')
  end.

(** A variant whose quantity has 4301 digits. *)
Definition rec_long_quantity : record :=
  [("v.size", SStr "M"); ("v.quantity", SStr (ones 4301));
   ("v.availability", SStr "in stock")].

(** The same variant as a block, a decoder that knows its text, and a page
    that carries it as JSON-LD. *)
Definition long_quantity_block : json :=
  JDict [("v", JDict [("size", JScalar (SStr "M"));
                      ("quantity", JScalar (SStr (ones 4301)));
                      ("availability", JScalar (SStr "in stock"))])].

Definition json_loads_long (txt : string) : option json :=
  if String.eqb txt "{v}" then Some long_quantity_block else None.

Definition soup_long (html : string) : soup :=
  {| ld_json_scripts := ["{v}"]; scripts := []; page_text := "Size M" |}.

(** Keys that start with a dot, at the top of a block. *)
Definition dot_key_block : json :=
  JDict [(".size", JScalar (SStr "L")); (".stock", JScalar (SInt 1))].

(* ===================================================================== *)
(** ** Facts about strings *)
(* ===================================================================== *)

Ltac each_char c :=
  destruct c as [[] [] [] [] [] [] [] []].

Lemma lower_char_idem (c : ascii) : lower_char (lower_char c) = lower_char c.
Proof. each_char c; reflexivity. Qed.

Lemma lower_idem (s : string) : lower (lower s) = lower s.
Proof.
  induction s as [|c s IH]; simpl; [reflexivity|].
  now rewrite lower_char_idem, IH.
Qed.

Lemma lower_app (a b : string) : lower (a ++ b) = lower a ++ lower b.
Proof. induction a as [|c a IH]; simpl; [reflexivity | now rewrite IH]. Qed.

Lemma app_empty_r (s : string) : s ++ EmptyString = s.
Proof. induction s as [|c s IH]; simpl; [reflexivity | now rewrite IH]. Qed.

Lemma app_assoc_s (a b c : string) : (a ++ b) ++ c = a ++ b ++ c.
Proof. induction a as [|x a IH]; simpl; [reflexivity | now rewrite IH]. Qed.

Lemma length_app_s (a b : string) :
  String.length (a ++ b) = String.length a + String.length b.
Proof. induction a as [|x a IH]; simpl; [reflexivity | now rewrite IH]. Qed.

Lemma app_inv_head_s (a b c : string) : a ++ b = a ++ c -> b = c.
Proof.
  induction a as [|x a IH]; simpl; intros H; [exact H|].
  injection H as H. now apply IH.
Qed.

Lemma app_inv_tail_s (a b c : string) : a ++ c = b ++ c -> a = b.
Proof.
  revert b. induction a as [|x a IH]; intros [|y b] H; simpl in H.
  - reflexivity.
  - apply (f_equal String.length) in H. simpl in H.
    rewrite length_app_s in H. lia.
  - apply (f_equal String.length) in H. simpl in H.
    rewrite length_app_s in H. lia.
  - injection H as -> H. f_equal. now apply IH.
Qed.

Lemma prefix_app (w s : string) : prefix w (w ++ s) = true.
Proof.
  induction w as [|c w IH]; simpl.
  - now destruct s.
  - destruct (ascii_dec c c) as [_|N]; [exact IH | now elim N].
Qed.

Lemma prefix_split (w s : string) :
  prefix w s = true -> exists post, s = w ++ post.
Proof.
  revert s. induction w as [|c w IH]; intros s H.
  - now exists s.
  - destruct s as [|d s]; simpl in H; [discriminate|].
    destruct (ascii_dec c d) as [->|]; [|discriminate].
    destruct (IH s H) as [post ->]. now exists post.
Qed.

Lemma contains_of_prefix (w s : string) :
  prefix w s = true -> contains w s = true.
Proof. intros H. destruct s; cbn [contains]; rewrite H; reflexivity. Qed.

Lemma contains_iff (w s : string) :
  contains w s = true <-> exists pre post, s = pre ++ w ++ post.
Proof.
  split.
  - induction s as [|c s IH]; simpl; intros H.
    + destruct w; [|discriminate]. now exists EmptyString, EmptyString.
    + apply orb_true_iff in H as [H|H].
      * destruct (prefix_split w (String c s) H) as [post E].
        now exists EmptyString, post.
      * destruct (IH H) as (pre & post & ->).
        now exists (String c pre), post.
  - intros (pre & post & ->).
    induction pre as [|c pre IH]; simpl.
    + apply contains_of_prefix, prefix_app.
    + now rewrite IH, orb_true_r.
Qed.

Lemma contains_inside (w pre mid post : string) :
  contains w mid = true -> contains w (pre ++ mid ++ post) = true.
Proof.
  rewrite !contains_iff. intros (a & b & ->).
  exists (pre ++ a), (b ++ post). now rewrite !app_assoc_s.
Qed.

Lemma contains_self (w : string) : contains w w = true.
Proof.
  apply contains_iff. exists EmptyString, EmptyString.
  simpl. now rewrite app_empty_r.
Qed.

Lemma any_in_false (toks : list string) (s w : string) :
  any_in toks s = false -> In w toks -> contains w s = false.
Proof.
  unfold any_in. intros H Hin.
  destruct (contains w s) eqn:E; [|reflexivity].
  assert (existsb (fun tok => contains tok s) toks = true) as X
      by (apply existsb_exists; eauto).
  congruence.
Qed.

(* ===================================================================== *)
(** ** Facts about the matcher *)
(* ===================================================================== *)

Lemma last_char_app (prev : option ascii) (a b : string) :
  last_char prev (a ++ b) = last_char (last_char prev a) b.
Proof. revert prev. induction a as [|c a IH]; intros prev; simpl; auto. Qed.

(** What a literal consumes is the literal, case apart. *)
Lemma match_lit_inv (w : string) (cur cur' : cursor) :
  In cur' (match_lit w cur) ->
  exists mid, snd cur = mid ++ snd cur' /\ fst cur' = last_char (fst cur) mid
              /\ lower mid = lower w.
Proof.
  revert cur. induction w as [|a w IH]; intros [p s] H; simpl in H.
  - destruct H as [<-|[]]. now exists EmptyString.
  - destruct s as [|c s]; [contradiction|].
    destruct (Ascii.eqb_spec (lower_char a) (lower_char c)) as [E|]; [|contradiction].
    destruct (IH _ H) as (mid & E1 & E2 & E3). simpl in *.
    exists (String c mid). simpl. rewrite E1 at 1. rewrite E3, E. auto.
Qed.

Lemma match_lit_intro (w mid post : string) (prev : option ascii) :
  lower mid = lower w ->
  In (last_char prev mid, post) (match_lit w (prev, mid ++ post)).
Proof.
  revert mid prev. induction w as [|a w IH]; intros [|c mid] prev E;
    simpl in E; try discriminate.
  - now left.
  - injection E as E1 E2. simpl. rewrite E1, Ascii.eqb_refl. now apply IH.
Qed.

Lemma match_star_inv (p : ascii -> bool) (prev : option ascii) (s : string)
    (cur' : cursor) :
  In cur' (match_star p prev s) ->
  exists mid, s = mid ++ snd cur' /\ fst cur' = last_char prev mid.
Proof.
  revert prev. induction s as [|c s IH]; intros prev H; simpl in H.
  - destruct H as [<-|[]]. now exists EmptyString.
  - destruct H as [<-|H]; [now exists EmptyString|].
    destruct (p c); [|contradiction].
    destruct (IH _ H) as (mid & E1 & E2).
    exists (String c mid). simpl. now rewrite <- E1.
Qed.

(** A match consumes a stretch of the subject, and the stretch holds one of
    the phrases the pattern requires. *)
Lemma rmatch_inv (r : regex) (cur cur' : cursor) :
  In cur' (rmatch r cur) ->
  exists mid,
    snd cur = mid ++ snd cur' /\ fst cur' = last_char (fst cur) mid /\
    forall ws, required r = Some ws ->
               exists w, In w ws /\ contains (lower w) (lower mid) = true.
Proof.
  revert cur cur'.
  induction r as [w|p| |r1 IH1 r2 IH2|r1 IH1 r2 IH2]; intros cur cur' H;
    simpl in H.
  - destruct (match_lit_inv _ _ _ H) as (mid & E1 & E2 & E3).
    exists mid. repeat split; auto.
    intros ws [= <-]. exists w. split; [now left|].
    rewrite E3. apply contains_self.
  - destruct (match_star_inv _ _ _ _ H) as (mid & E1 & E2).
    exists mid. repeat split; auto. discriminate.
  - destruct (at_boundary cur); [|contradiction]. destruct H as [<-|[]].
    exists EmptyString. repeat split; auto. discriminate.
  - apply in_flat_map in H as (c1 & H1 & H2).
    destruct (IH1 _ _ H1) as (m1 & A1 & A2 & A3).
    destruct (IH2 _ _ H2) as (m2 & B1 & B2 & B3).
    exists (m1 ++ m2). repeat split.
    + now rewrite A1, B1, app_assoc_s.
    + now rewrite last_char_app, <- A2.
    + intros ws Hws. simpl in Hws. destruct (required r2) as [ws2|].
      * injection Hws as <-. destruct (B3 _ eq_refl) as (w & Hin & Hc).
        exists w. split; [exact Hin|]. rewrite lower_app.
        rewrite <- (app_empty_r (lower m2)).
        now apply contains_inside.
      * destruct (A3 _ Hws) as (w & Hin & Hc).
        exists w. split; [exact Hin|]. rewrite lower_app.
        now apply (contains_inside _ EmptyString).
  - apply in_app_or in H. simpl.
    destruct H as [H|H]; [destruct (IH1 _ _ H) as (m & A1 & A2 & A3)
                         |destruct (IH2 _ _ H) as (m & A1 & A2 & A3)];
      exists m; repeat split; auto; intros ws Hws;
      destruct (required r1) as [ws1|]; try discriminate;
      destruct (required r2) as [ws2|]; try discriminate;
      injection Hws as <-.
    + destruct (A3 _ eq_refl) as (w & Hin & Hc). exists w.
      split; [apply in_or_app; now left | exact Hc].
    + destruct (A3 _ eq_refl) as (w & Hin & Hc). exists w.
      split; [apply in_or_app; now right | exact Hc].
Qed.

Lemma matches_at_iff (r : regex) (cur : cursor) :
  matches_at r cur = true <-> exists cur', In cur' (rmatch r cur).
Proof.
  unfold matches_at. destruct (rmatch r cur) as [|c l]; split.
  - discriminate.
  - intros [c' []].
  - intros _. exists c. now left.
  - reflexivity.
Qed.

(** A search succeeds exactly when the pattern matches at some position. *)
Lemma search_from_iff (r : regex) (prev : option ascii) (s : string) :
  search_from r prev s = true <->
  exists pre rest, s = pre ++ rest /\ matches_at r (last_char prev pre, rest) = true.
Proof.
  revert prev. induction s as [|c s IH]; intros prev; simpl.
  - rewrite orb_false_r. split.
    + intros H. now exists EmptyString, EmptyString.
    + intros (pre & rest & E & H). destruct pre; [|discriminate].
      simpl in E. subst rest. exact H.
  - rewrite orb_true_iff, IH. split.
    + intros [H|(pre & rest & E & H)].
      * now exists EmptyString, (String c s).
      * exists (String c pre), rest. simpl. now rewrite E.
    + intros (pre & rest & E & H). destruct pre as [|d pre]; simpl in *.
      * left. now subst rest.
      * injection E as -> ->. right. now exists pre, rest.
Qed.

(** A text in which a pattern is found holds a phrase the pattern requires. *)
Lemma search_required (r : regex) (s : string) (ws : list string) :
  required r = Some ws -> search r s = true ->
  exists w, In w ws /\ contains (lower w) (lower s) = true.
Proof.
  intros Hws H. apply search_from_iff in H as (pre & rest & -> & H).
  apply matches_at_iff in H as (cur' & H).
  destruct (rmatch_inv _ _ _ H) as (mid & E1 & _ & E3).
  destruct (E3 _ Hws) as (w & Hin & Hc). exists w. split; [exact Hin|].
  simpl in E1. rewrite E1, !lower_app. now apply contains_inside.
Qed.

(* ===================================================================== *)
(** ** The structured-block extractor: decode isolation *)
(* ===================================================================== *)

Section ExtractorFacts.
Variable json_loads : string -> option json.

Lemma ld_fold_flat_map (l : list string) (acc : list json) :
  fold_left
    (fun blocks txt =>
       match json_loads txt with
       | Some data => (blocks ++ ld_blocks data)%list
       | None => blocks
       end) l acc
  = (acc ++ flat_map (script_blocks json_loads) l)%list.
Proof.
  revert acc. induction l as [|txt l IH]; intros acc; simpl.
  - now rewrite app_nil_r.
  - rewrite IH. unfold script_blocks at 2.
    destruct (json_loads txt); [now rewrite <- app_assoc | reflexivity].
Qed.

Lemma json_blocks_from_ld_flat_map (sp : soup) :
  _json_blocks_from_ld json_loads sp
  = flat_map (script_blocks json_loads) (ld_json_scripts sp).
Proof. unfold _json_blocks_from_ld. now rewrite ld_fold_flat_map. Qed.

(** C8. A JSON-LD script whose text does not decode is skipped and nothing
    else changes: the blocks extracted are those of the scripts before it
    followed by those of the scripts after it, as if the bad script were not
    on the page, and every mapping another script decodes to is among them. *)
Theorem ld_decode_isolation (sp : soup) (pre post : list string) (bad : string) :
  ld_json_scripts sp = (pre ++ bad :: post)%list ->
  json_loads bad = None ->
  _json_blocks_from_ld json_loads sp
  = (flat_map (script_blocks json_loads) pre
     ++ flat_map (script_blocks json_loads) post)%list
  /\ _json_blocks_from_ld json_loads sp
     = _json_blocks_from_ld json_loads (with_ld_scripts sp (pre ++ post))
  /\ forall txt items,
       In txt (pre ++ post) -> json_loads txt = Some (JDict items) ->
       In (JDict items) (_json_blocks_from_ld json_loads sp).
Proof.
  intros Hsp Hbad.
  assert (_json_blocks_from_ld json_loads sp
          = flat_map (script_blocks json_loads) (pre ++ post)) as E.
  { rewrite json_blocks_from_ld_flat_map, Hsp, !flat_map_app. simpl.
    unfold script_blocks at 2. now rewrite Hbad. }
  split; [|split].
  - now rewrite E, flat_map_app.
  - now rewrite E, json_blocks_from_ld_flat_map.
  - intros txt items Hin Htxt. rewrite E. apply in_flat_map.
    exists txt. split; [exact Hin|].
    unfold script_blocks. rewrite Htxt. now left.
Qed.
End ExtractorFacts.

(** Three scripts, the second one malformed: the other two are extracted. *)
Lemma ld_decode_isolation_witness :
  json_loads_two "{oops" = None /\
  _json_blocks_from_ld json_loads_two
    {| ld_json_scripts := ["{}"; "{oops"; "[{}]"]; scripts := [];
       page_text := EmptyString |}
  = [JDict []; JDict []].
Proof.
  split; [reflexivity|].
  destruct (ld_decode_isolation json_loads_two
              {| ld_json_scripts := ["{}"; "{oops"; "[{}]"]; scripts := [];
                 page_text := EmptyString |}
              ["{}"] ["[{}]"] "{oops" eq_refl eq_refl) as [E _].
  exact E.
Defined.

(* ===================================================================== *)
(** ** The text fallback and the orchestrator *)
(* ===================================================================== *)

Lemma known_phrase_absent (text : string) (r : regex) (ws : list string) :
  no_known_phrase text = true ->
  required r = Some ws ->
  (forall w, In w ws -> In (lower w) KNOWN_PHRASES) ->
  search r (lower text) = false.
Proof.
  intros Hno Hws Hknown.
  destruct (search r (lower text)) eqn:E; [exfalso | reflexivity].
  destruct (search_required _ _ _ Hws E) as (w & Hin & Hc).
  rewrite lower_idem in Hc.
  unfold no_known_phrase in Hno. apply negb_true_iff in Hno.
  rewrite (any_in_false _ _ _ Hno (Hknown _ Hin)) in Hc. discriminate.
Qed.

Ltac known_phrases :=
  let w := fresh "w" in
  let H := fresh "H" in
  intros w H; simpl in H;
  repeat (destruct H as [<-|H]; [vm_compute; tauto|]);
  contradiction.

(** A page with none of the known phrases gives the fallback nothing. *)
Lemma fallback_text_silent (sp : soup) (target_size : string) :
  no_known_phrase (page_text sp) = true ->
  _fallback_text sp target_size = None.
Proof.
  intros Hno. unfold _fallback_text.
  rewrite (known_phrase_absent _ (size_then_out _)
             ["out of stock"; "sold out"; "unavailable"] Hno eq_refl)
    by known_phrases.
  rewrite (known_phrase_absent _ (size_then_in _)
             ["add to bag"; "add to cart"; "in stock"; "available"] Hno eq_refl)
    by known_phrases.
  rewrite (known_phrase_absent _ ADD_PHRASES
             ["add to bag"; "add to cart"] Hno eq_refl)
    by known_phrases.
  rewrite (known_phrase_absent _ OUT_PHRASES
             ["out of stock"; "sold out"; "unavailable"] Hno eq_refl)
    by known_phrases.
  reflexivity.
Qed.

Section OrchestratorFacts.
Variable float_str : float -> string.
Variable json_loads : string -> option json.
Variable _HAS_REGEX : bool.
Variable fetch : string -> string.
Variable BeautifulSoup : string -> soup.

Local Abbreviation run :=
  (check_once float_str json_loads _HAS_REGEX fetch BeautifulSoup).
Local Abbreviation structured :=
  (structured_path float_str json_loads _HAS_REGEX).
Local Abbreviation extracted sp :=
  (_json_blocks_from_ld json_loads sp
   ++ _json_blocks_from_inline_scripts json_loads _HAS_REGEX sp)%list.

(** C3. On a page that was fetched, the structured path comes first: it
    interprets the records correlated from the extracted blocks, and its
    decision is the result. Without one the text fallback decides, and when
    it does not either the result is no verdict with the detail
    [could not determine]. So a page with no block and none of the known
    phrases gives exactly that, whatever the target size. An exception of
    the structured path is the only thing that keeps the fallback from its
    turn: it goes up to the caller. *)
Theorem check_once_order (url target_size : string) :
  nonempty (fetch url) = true ->
  let sp := BeautifulSoup (fetch url) in
  (structured sp target_size
   = match extracted sp with
     | [] => Return None
     | _ :: _ =>
         _interpret_availability float_str (_find_size_records (extracted sp))
                                 target_size
     end)
  /\ (forall ok detail,
        structured sp target_size = Return (Some (ok, detail)) ->
        run url target_size = Return (Some ok, detail))
  /\ (forall ok detail,
        structured sp target_size = Return None ->
        _fallback_text sp target_size = Some (ok, detail) ->
        run url target_size = Return (Some ok, detail))
  /\ (structured sp target_size = Return None ->
      _fallback_text sp target_size = None ->
      run url target_size = Return (None, "could not determine"))
  /\ (extracted sp = [] ->
      no_known_phrase (page_text sp) = true ->
      run url target_size = Return (None, "could not determine"))
  /\ (forall e,
        structured sp target_size = Raise e -> run url target_size = Raise e).
Proof.
  intros Hfetch sp.
  assert (run url target_size
          = (res <- structured sp target_size ;;
             match res with
             | Some (ok, detail) => Return (Some ok, detail)
             | None =>
                 match _fallback_text sp target_size with
                 | Some (ok, detail) => Return (Some ok, detail)
                 | None => Return (None, "could not determine")
                 end
             end)) as Hrun.
  { unfold check_once. now rewrite Hfetch. }
  repeat split.
  - intros ok detail H. now rewrite Hrun, H.
  - intros ok detail H1 H2. rewrite Hrun, H1. simpl. now rewrite H2.
  - intros H1 H2. rewrite Hrun, H1. simpl. now rewrite H2.
  - intros Hblocks Hno. rewrite Hrun.
    unfold structured_path. rewrite Hblocks. simpl.
    now rewrite (fallback_text_silent _ _ Hno).
  - intros e H. now rewrite Hrun, H.
Qed.
End OrchestratorFacts.

(** Scenario D: no structured data, no known phrase, target [Medium]. *)
Lemma check_once_order_witness :
  nonempty (fetch_const "https://shop.example/p1") = true /\
  check_once float_str_const json_loads_two true fetch_const soup_const
             "https://shop.example/p1" "Medium"
  = Return (None, "could not determine").
Proof.
  split; [reflexivity|].
  destruct (check_once_order float_str_const json_loads_two true fetch_const
              soup_const "https://shop.example/p1" "Medium" eq_refl)
    as (_ & _ & _ & _ & H & _).
  apply H; reflexivity.
Defined.

(* ===================================================================== *)
(** ** The availability interpreter: the two signal loops *)
(* ===================================================================== *)


Lemma int_long (q : string) :
  (INT_MAX_STR_DIGITS < Z.of_nat (String.length q))%Z ->
  int q = Raise ValueError.
Proof.
  intros H. unfold int.
  destruct (Z.ltb_spec INT_MAX_STR_DIGITS (Z.of_nat (String.length q)));
    [reflexivity | lia].
Qed.



Lemma positive_quantity_true (q : string) :
  positive_quantity q = Return true <->
  isdigit q = true /\ exists n, int q = Return n /\ (0 < n)%Z.
Proof.
  unfold positive_quantity. split.
  - destruct (isdigit q); [|discriminate].
    destruct (int q) as [n|e]; simpl; [|discriminate].
    intros [= H]. apply Z.ltb_lt in H. eauto.
  - intros (-> & n & -> & H). simpl. f_equal. now apply Z.ltb_lt.
Qed.

Lemma positive_quantity_raise (q : string) (e : exn) :
  positive_quantity q = Raise e <->
  isdigit q = true /\ (INT_MAX_STR_DIGITS < Z.of_nat (String.length q))%Z.
Proof.
  unfold positive_quantity, int. destruct e.
  destruct (isdigit q);
    destruct (Z.ltb_spec INT_MAX_STR_DIGITS (Z.of_nat (String.length q)))
      as [Hlt|Hle];
    simpl; split; try discriminate; try tauto; try (intros [_ H']; lia).
  intros [H' _]. discriminate.
Qed.

Lemma qty_signal_inv (qs : list string) (ok : bool) (detail : string) :
  qty_signal qs = Return (Some (ok, detail)) ->
  ok = true /\
  exists q, In q qs /\ positive_quantity q = Return true
            /\ detail = "quantity=" ++ q.
Proof.
  induction qs as [|q qs IH]; cbn [qty_signal]; [discriminate|].
  destruct (positive_quantity q) as [[|]|e] eqn:E; cbn [bind].
  - intros [= <- <-]. split; [reflexivity|]. exists q.
    repeat split; auto. now left.
  - intros H. destruct (IH H) as (Hok & q' & Hin & Hq & Hd).
    split; [exact Hok|]. exists q'. repeat split; auto. now right.
  - discriminate.
Qed.

Lemma qty_signal_none (qs : list string) :
  Forall (fun q => positive_quantity q = Return false) qs ->
  qty_signal qs = Return None.
Proof.
  induction 1 as [|q qs Hq _ IH]; simpl; [reflexivity|].
  now rewrite Hq.
Qed.


(** The loop raises at the first quantity that [int] turns down, when no
    quantity before it is positive. *)
Lemma qty_signal_raise (pre post : list string) (q : string) (e : exn) :
  Forall (fun a => positive_quantity a = Return false) pre ->
  positive_quantity q = Raise e ->
  qty_signal (pre ++ q :: post) = Raise e.
Proof.
  induction 1 as [|a pre Ha _ IH]; intros Hq; simpl.
  - now rewrite Hq.
  - rewrite Ha. simpl. now apply IH.
Qed.


Lemma avail_signal_inv (avs : list string) (ok : bool) (detail : string) :
  avail_signal avs = Some (ok, detail) ->
  In detail avs /\
  if ok then truthy_text (lower detail) = true
  else truthy_text (lower detail) = false /\ falsy_text (lower detail) = true.
Proof.
  induction avs as [|av avs IH]; simpl; [discriminate|].
  destruct (truthy_text (lower av)) eqn:Ht.
  - intros [= <- <-]. auto.
  - destruct (falsy_text (lower av)) eqn:Hf.
    + intros [= <- <-]. auto.
    + intros H. destruct (IH H). auto.
Qed.

(** The undecided values before the first decided one do not count. *)
Lemma avail_signal_skip (pre post : list string) (av : string) :
  Forall (fun a => truthy_text (lower a) = false
                   /\ falsy_text (lower a) = false) pre ->
  avail_signal (pre ++ av :: post) = avail_signal (av :: post).
Proof.
  induction 1 as [|a pre [Ht Hf] _ IH]; [reflexivity|].
  cbn [app avail_signal]. now rewrite Ht, Hf.
Qed.

Lemma positive_quantity_zero : positive_quantity "0" = Return false.
Proof. reflexivity. Qed.

Lemma positive_quantity_nondigit (q : string) :
  isdigit q = false -> positive_quantity q = Return false.
Proof. unfold positive_quantity. now intros ->. Qed.

(** *** Digits *)

Lemma digit_cases (c : ascii) :
  is_digit c = true ->
  In c ["0"; "1"; "2"; "3"; "4"; "5"; "6"; "7"; "8"; "9"]%char.
Proof. each_char c; intros H; try discriminate H; simpl; tauto. Qed.

Lemma lower_digits (q : string) : all_chars is_digit q = true -> lower q = q.
Proof.
  induction q as [|c q IH]; simpl; [reflexivity|].
  intros H. apply andb_true_iff in H as [Hc Hq]. rewrite (IH Hq).
  f_equal. apply digit_cases in Hc. simpl in Hc.
  repeat (destruct Hc as [<-|Hc]; [reflexivity|]). contradiction.
Qed.

Lemma search_from_cons (r : regex) (prev : option ascii) (c : ascii)
    (s : string) :
  search_from r prev (String c s)
  = matches_at r (prev, String c s) || search_from r (Some c) s.
Proof. reflexivity. Qed.

(** The falsy pattern finds nothing in a run of digits. *)
Lemma falsy_re_digits (q : string) (prev : option ascii) :
  all_chars is_digit q = true -> search_from FALSY_RE prev q = false.
Proof.
  revert prev. induction q as [|c q IH]; intros prev H.
  - reflexivity.
  - simpl in H. apply andb_true_iff in H as [Hc Hq].
    rewrite search_from_cons, (IH _ Hq), orb_false_r.
    apply digit_cases in Hc. simpl in Hc.
    repeat (destruct Hc as [<-|Hc]; [reflexivity|]). contradiction.
Qed.

Lemma falsy_text_quantity (q : string) :
  all_chars is_digit q = true -> falsy_text (lower ("quantity=" ++ q)) = false.
Proof.
  intros Hq. rewrite lower_app, (lower_digits _ Hq).
  change (lower "quantity=") with "quantity=".
  unfold falsy_text. apply orb_false_iff. split; [reflexivity|].
  unfold search.
  change (search_from FALSY_RE None ("quantity=" ++ q))
    with (search_from FALSY_RE (Some "="%char) q).
  now apply falsy_re_digits.
Qed.

(* ===================================================================== *)
(** ** The availability interpreter: matching the size *)
(* ===================================================================== *)

Lemma lstrip_spaces (s : string) :
  all_chars is_space s = true -> lstrip s = EmptyString.
Proof.
  induction s as [|c s IH]; simpl; [reflexivity|].
  intros H. apply andb_true_iff in H as [-> Hs]. now apply IH.
Qed.

Lemma strip_spaces (s : string) :
  all_chars is_space s = true -> strip s = EmptyString.
Proof. intros H. unfold strip. now rewrite lstrip_spaces. Qed.

(** What the pattern of [whole_word] asks of a cursor. *)
Lemma whole_word_at (t : string) (cur cur' : cursor) :
  In cur' (rmatch (whole_word t) cur) <->
  at_boundary cur = true /\ In cur' (match_lit t cur)
  /\ at_boundary cur' = true.
Proof.
  unfold whole_word. cbn [rmatch]. split.
  - intros H. apply in_flat_map in H as (c1 & H1 & H).
    destruct (at_boundary cur) eqn:Hb; [|contradiction].
    destruct H1 as [<-|[]].
    apply in_flat_map in H as (c2 & H2 & H3).
    destruct (at_boundary c2) eqn:Hb2; [|contradiction].
    destruct H3 as [<-|[]]. auto.
  - intros (Hb & Hlit & Hb'). apply in_flat_map. exists cur.
    rewrite Hb. split; [now left|].
    apply in_flat_map. exists cur'. rewrite Hb'. split; [exact Hlit | now left].
Qed.

(** The search for [\bt\b] finds the whole-word occurrences of [t]. *)
Lemma whole_word_search (t sv : string) :
  search (whole_word t) sv = true <-> whole_word_in t sv.
Proof.
  unfold search, whole_word_in. rewrite search_from_iff. split.
  - intros (pre & rest & -> & H).
    apply matches_at_iff in H as (cur' & H).
    apply whole_word_at in H as (Hb & Hlit & Hb').
    destruct (match_lit_inv _ _ _ Hlit) as (mid & E1 & E2 & E3).
    destruct cur' as [p' post]. simpl in E1, E2. subst rest p'.
    exists pre, mid, post. repeat split; auto.
    unfold boundary. now rewrite last_char_app.
  - intros (pre & mid & post & -> & Hl & Hb & Hb').
    exists pre, (mid ++ post). split; [reflexivity|].
    apply matches_at_iff. exists (last_char (last_char None pre) mid, post).
    apply whole_word_at. repeat split.
    + exact Hb.
    + now apply match_lit_intro.
    + unfold boundary in Hb'. now rewrite last_char_app in Hb'.
Qed.

Lemma size_value_matches_iff (t sv : string) :
  size_value_matches t sv = true <-> lower sv = t \/ whole_word_in t sv.
Proof.
  unfold size_value_matches.
  rewrite orb_true_iff, String.eqb_eq, whole_word_search.
  intuition congruence.
Qed.

(** With nothing to find, the first word character of the text will do. *)
Lemma empty_word_search (s : string) (prev : option ascii) :
  word_before prev = false -> any_char is_word s = true ->
  search_from (whole_word EmptyString) prev s = true.
Proof.
  revert prev. induction s as [|c s IH]; intros prev Hp H; simpl in H.
  - discriminate.
  - rewrite search_from_cons. destruct (is_word c) eqn:Hc.
    + apply orb_true_iff. left. apply matches_at_iff.
      exists (prev, String c s). apply whole_word_at.
      assert (at_boundary (prev, String c s) = true) as Hb
          by (unfold at_boundary; simpl; now rewrite Hp, Hc).
      repeat split; [exact Hb | now left | exact Hb].
    + apply orb_true_iff. right. apply IH; [exact Hc | exact H].
Qed.

(* ===================================================================== *)
(** ** The availability interpreter: the loop over the records *)
(* ===================================================================== *)

Section InterpreterFacts.
Variable float_str : float -> string.

Lemma interpret_records_skip (t : string) (before after : list record)
    (rec : record) :
  Forall (fun r => interpret_record float_str t r = Return None) before ->
  interpret_records float_str t (before ++ rec :: after)
  = (r <- interpret_record float_str t rec ;;
     match r with
     | Some d => Return (Some d)
     | None => interpret_records float_str t after
     end).
Proof.
  induction 1 as [|r before Hr _ IH]; [reflexivity|].
  cbn [app interpret_records]. now rewrite Hr.
Qed.

Lemma interpret_records_inv (t : string) (records : list record)
    (r : bool * string) :
  interpret_records float_str t records = Return (Some r) ->
  exists rec,
    In rec records /\ interpret_record float_str t rec = Return (Some r).
Proof.
  induction records as [|rec records IH]; simpl; [discriminate|].
  destruct (interpret_record float_str t rec) as [[r'|]|e] eqn:E; simpl.
  - intros [= <-]. exists rec. auto.
  - intros H. destruct (IH H) as (rec' & Hin & Hrec). eauto.
  - discriminate.
Qed.


Lemma interpret_record_matched (t : string) (rec : record) :
  size_match float_str t rec = true ->
  interpret_record float_str t rec
  = (r <- qty_signal (values_where QTY_FIELD_TOKENS (fields float_str rec)) ;;
     match r with
     | Some d => Return (Some d)
     | None =>
         Return (avail_signal
                   (values_where AVAIL_FIELD_TOKENS (fields float_str rec)))
     end).
Proof. intros H. unfold interpret_record. now rewrite H. Qed.

Lemma interpret_record_unmatched (t : string) (rec : record) :
  size_match float_str t rec = false ->
  interpret_record float_str t rec = Return None.
Proof. intros H. unfold interpret_record. now rewrite H. Qed.

Lemma interpret_record_inv (t : string) (rec : record) (ok : bool)
    (detail : string) :
  interpret_record float_str t rec = Return (Some (ok, detail)) ->
  size_match float_str t rec = true /\
  (qty_signal (values_where QTY_FIELD_TOKENS (fields float_str rec))
   = Return (Some (ok, detail))
   \/ avail_signal (values_where AVAIL_FIELD_TOKENS (fields float_str rec))
      = Some (ok, detail)).
Proof.
  unfold interpret_record.
  destruct (size_match float_str t rec); simpl; [|discriminate].
  destruct (qty_signal _) as [[r|]|e]; simpl; intros [= H]; split; auto.
  left. now rewrite H.
Qed.


(** C10. The quantity loop can only decide for in stock. A quantity that is
    [0] or not made of digits decides nothing, so that a matched record all
    of whose quantities are such is decided by its availability-like values,
    if at all; whatever the quantity loop returns is an in-stock verdict
    with the justification [quantity=<q>] for a positive quantity [q]; and
    no result of the interpreter is an out-of-stock verdict with such a
    justification. *)
Theorem quantity_only_in_stock :
  (forall qs,
      Forall (fun q => q = "0" \/ isdigit q = false) qs ->
      qty_signal qs = Return None)
  /\ (forall t rec,
        size_match float_str t rec = true ->
        Forall (fun q => q = "0" \/ isdigit q = false)
               (values_where QTY_FIELD_TOKENS (fields float_str rec)) ->
        interpret_record float_str t rec
        = Return (avail_signal
                    (values_where AVAIL_FIELD_TOKENS (fields float_str rec))))
  /\ (forall qs ok detail,
        qty_signal qs = Return (Some (ok, detail)) ->
        ok = true /\
        exists q n, In q qs /\ isdigit q = true /\ int q = Return n
                    /\ (0 < n)%Z /\ detail = "quantity=" ++ q)
  /\ (forall records target_size ok q,
        all_chars is_digit q = true ->
        _interpret_availability float_str records target_size
        = Return (Some (ok, "quantity=" ++ q)) ->
        ok = true).
Proof.
  assert (forall qs,
             Forall (fun q => q = "0" \/ isdigit q = false) qs ->
             qty_signal qs = Return None) as Hnone.
  { intros qs H. apply qty_signal_none.
    eapply Forall_impl; [|exact H]. intros q [->|Hq].
    - apply positive_quantity_zero.
    - now apply positive_quantity_nondigit. }
  split; [exact Hnone|]. split; [|split].
  - intros t rec Hsize Hqs.
    now rewrite (interpret_record_matched _ _ Hsize), (Hnone _ Hqs).
  - intros qs ok detail H.
    destruct (qty_signal_inv _ _ _ H) as (-> & q & Hin & Hq & ->).
    split; [reflexivity|].
    apply positive_quantity_true in Hq as (Hd & n & Hn & Hp).
    exists q, n. auto.
  - intros records target_size ok q Hq H.
    destruct ok; [reflexivity | exfalso].
    apply interpret_records_inv in H as (rec & _ & H).
    apply interpret_record_inv in H as (_ & [H|H]).
    + apply qty_signal_inv in H as (H & _). discriminate.
    + apply avail_signal_inv in H as (_ & _ & H).
      rewrite (falsy_text_quantity _ Hq) in H. discriminate.
Qed.

(** The falsy tokens that the truthy test lets through decide for out of
    stock: the first availability-like value that is truthy or falsy, when it
    is one of them, is the justification. *)
Lemma falsy_reached_out_of_stock (before after : list record) (rec : record)
    (target_size av : string) (pre post : list string) :
  let t := lower (strip target_size) in
  Forall (fun r => interpret_record float_str t r = Return None) before ->
  size_match float_str t rec = true ->
  qty_signal (values_where QTY_FIELD_TOKENS (fields float_str rec))
  = Return None ->
  values_where AVAIL_FIELD_TOKENS (fields float_str rec) = (pre ++ av :: post)%list ->
  Forall (fun a => truthy_text (lower a) = false
                   /\ falsy_text (lower a) = false) pre ->
  In (lower av) FALSY_REACHED ->
  _interpret_availability float_str (before ++ rec :: after) target_size
  = Return (Some (false, av)).
Proof.
  intros t Hbefore Hsize Hqty Havs Hpre Hav.
  unfold _interpret_availability. fold t.
  rewrite (interpret_records_skip _ _ _ _ Hbefore).
  rewrite (interpret_record_matched _ _ Hsize), Hqty, Havs.
  rewrite (avail_signal_skip _ _ _ Hpre). cbn [avail_signal bind].
  simpl in Hav.
  repeat (destruct Hav as [<-|Hav]; [reflexivity|]). contradiction.
Qed.

(** C2, on the code: [unavailable] and [notavailable] are in [FALSY], yet a
    matched record whose only signal is one of them is reported in stock,
    because the truthy pattern is tried first and finds [available] in it. *)
Theorem falsy_token_shadowed :
  member "unavailable" FALSY = true /\ member "notavailable" FALSY = true
  /\ truthy_text "unavailable" = true /\ truthy_text "notavailable" = true
  /\ _interpret_availability float_str [rec_status "M" "unavailable"] "M"
     = Return (Some (true, "unavailable"))
  /\ _interpret_availability float_str [rec_status "M" "notavailable"] "M"
     = Return (Some (true, "notavailable")).
Proof. repeat split; reflexivity. Qed.

Lemma size_match_iff (t : string) (rec : record) :
  size_match float_str t rec = true <->
  exists sv, In sv (values_where SIZE_FIELD_TOKENS (fields float_str rec))
             /\ (lower sv = t \/ whole_word_in t sv).
Proof.
  unfold size_match. rewrite existsb_exists.
  split; intros (sv & Hin & H); exists sv; split; auto;
    now apply size_value_matches_iff.
Qed.

(** C9. A target size that is empty or all white space is trimmed to the
    empty string, and then every record with a size-like value that has a
    word character matches, so that its quantities and availability-like
    values are interpreted. *)
Theorem blank_target_matches (target_size : string) (rec : record)
    (sv : string) :
  all_chars is_space target_size = true ->
  In sv (values_where SIZE_FIELD_TOKENS (fields float_str rec)) ->
  any_char is_word sv = true ->
  lower (strip target_size) = EmptyString
  /\ size_match float_str (lower (strip target_size)) rec = true
  /\ interpret_record float_str (lower (strip target_size)) rec
     = (r <- qty_signal (values_where QTY_FIELD_TOKENS (fields float_str rec)) ;;
        match r with
        | Some d => Return (Some d)
        | None =>
            Return (avail_signal
                      (values_where AVAIL_FIELD_TOKENS (fields float_str rec)))
        end).
Proof.
  intros Hblank Hin Hword.
  assert (lower (strip target_size) = EmptyString) as Ht
      by now rewrite strip_spaces.
  assert (size_match float_str (lower (strip target_size)) rec = true) as Hm.
  { rewrite Ht. unfold size_match. apply existsb_exists. exists sv.
    split; [exact Hin|]. unfold size_value_matches.
    apply orb_true_iff. right. now apply empty_word_search. }
  repeat split; auto. now apply interpret_record_matched.
Qed.

End InterpreterFacts.

Lemma quantity_only_in_stock_witness :
  qty_signal ["0"; "n/a"; "-3"; "2.5"] = Return None
  /\ qty_signal ["0"; "12"] = Return (Some (true, "quantity=12")).
Proof.
  split.
  - apply (quantity_only_in_stock float_str_const).
    repeat (constructor; [first [left; reflexivity | right; reflexivity]|]).
    constructor.
  - reflexivity.
Defined.

Lemma blank_target_matches_witness :
  _interpret_availability float_str_const [rec_status "XL" "sold out"] "  "
  = Return (Some (false, "sold out")).
Proof.
  unfold _interpret_availability. cbn [interpret_records].
  destruct (blank_target_matches float_str_const "  "
              (rec_status "XL" "sold out") "XL") as (Ht & _ & Hrec).
  - reflexivity.
  - vm_compute. left. reflexivity.
  - reflexivity.
  - rewrite Hrec. reflexivity.
Defined.

(* ===================================================================== *)
(** ** The flattener *)
(* ===================================================================== *)

(** Induction over a block, with the hypothesis for every value of a
    mapping and every element of a sequence. *)
Lemma json_ind (P : json -> Prop)
    (Hscalar : forall v, P (JScalar v))
    (Hlist : forall l, Forall P l -> P (JList l))
    (Hdict : forall items, Forall (fun kv => P (snd kv)) items -> P (JDict items)) :
  forall d, P d.
Proof.
  fix IH 1. intros [v|l|items].
  - apply Hscalar.
  - apply Hlist. induction l as [|x l IHl]; constructor; [apply IH | exact IHl].
  - apply Hdict. induction items as [|[k v] items IHl]; constructor;
      [apply IH | exact IHl].
Qed.

Section DictFacts.
Context {V : Type}.
Implicit Types (d ws : dict V) (k : string) (v : V).

Lemma dict_set_fresh d k v :
  ~ In k (keys d) -> dict_set d k v = (d ++ [(k, v)])%list.
Proof.
  induction d as [|[k' v'] d IH]; simpl; intros H; [reflexivity|].
  destruct (String.eqb_spec k' k) as [->|_]; [tauto|].
  rewrite IH; tauto.
Qed.

Lemma keys_dict_set d k v :
  keys (dict_set d k v) = if existsb (String.eqb k) (keys d)
                          then keys d else (keys d ++ [k])%list.
Proof.
  induction d as [|[k' v'] d IH]; simpl; [reflexivity|].
  rewrite (String.eqb_sym k k').
  destruct (String.eqb k' k); simpl; [reflexivity|].
  rewrite IH. now destruct (existsb (String.eqb k) (keys d)).
Qed.

Lemma existsb_eqb_In (k : string) (l : list string) :
  existsb (String.eqb k) l = true <-> In k l.
Proof.
  rewrite existsb_exists. split.
  - intros (x & Hin & E). apply String.eqb_eq in E. now subst.
  - intros H. exists k. split; [exact H | apply String.eqb_refl].
Qed.

Lemma dict_set_ok d k v : dict_ok d -> dict_ok (dict_set d k v).
Proof.
  unfold dict_ok. intros H. rewrite keys_dict_set.
  destruct (existsb (String.eqb k) (keys d)) eqn:E; [exact H|].
  apply NoDup_app; [exact H | repeat constructor; auto |].
  intros a Ha [<-|[]]. apply existsb_eqb_In in Ha. congruence.
Qed.

Lemma dict_update_ok d ws : dict_ok d -> dict_ok (dict_update d ws).
Proof.
  unfold dict_update. revert d.
  induction ws as [|[k v] ws IH]; intros d H; simpl; [exact H|].
  apply IH. now apply dict_set_ok.
Qed.

(** Entries under new, distinct keys are appended in their order. *)
Lemma dict_update_fresh d ws :
  NoDup (keys d ++ keys ws) -> dict_update d ws = (d ++ ws)%list.
Proof.
  unfold dict_update. revert d.
  induction ws as [|[k v] ws IH]; intros d H; simpl.
  - now rewrite app_nil_r.
  - simpl in H. rewrite dict_set_fresh.
    + rewrite IH; [now rewrite <- app_assoc|].
      unfold keys in *. rewrite map_app, <- app_assoc. exact H.
    + apply NoDup_remove_2 in H. intros Hin. apply H, in_or_app. now left.
Qed.
End DictFacts.

Lemma fold_left_ok {A : Type} (g : dict scalar -> A -> dict scalar)
    (l : list A) (acc : dict scalar) :
  (forall out x, dict_ok out -> dict_ok (g out x)) ->
  dict_ok acc -> dict_ok (fold_left g l acc).
Proof.
  intros Hg. revert acc.
  induction l as [|x l IH]; intros acc H; simpl; [exact H|].
  apply IH. now apply Hg.
Qed.

Lemma fold_enumerate_ok {A : Type} (g : dict scalar -> nat -> A -> dict scalar)
    (l : list A) (i : nat) (acc : dict scalar) :
  (forall out i x, dict_ok out -> dict_ok (g out i x)) ->
  dict_ok acc -> dict_ok (fold_enumerate g l i acc).
Proof.
  intros Hg. revert i acc.
  induction l as [|x l IH]; intros i acc H; simpl; [exact H|].
  apply IH. now apply Hg.
Qed.

(** The flattener returns a dict: no key twice. *)
Lemma flatten_ok (d : json) (prefix : string) : dict_ok (_flatten d prefix).
Proof.
  destruct d as [v|l|items]; simpl.
  - unfold dict_ok. simpl. repeat constructor. auto.
  - apply fold_enumerate_ok; [|constructor].
    intros out i x H. now apply dict_update_ok.
  - apply fold_left_ok; [|constructor].
    intros out [k v] H. now apply dict_update_ok.
Qed.

(** *** The flattener writes one entry per traversal path *)

Lemma keys_app {V : Type} (a b : dict V) :
  keys (a ++ b)%list = (keys a ++ keys b)%list.
Proof. apply map_app. Qed.

Lemma writes_dict (items : list (string * json)) (prefix : string) :
  writes (JDict items) prefix
  = flat_map (fun kv => let '(k, v) := kv in writes v (dict_key prefix k))
             items.
Proof.
  unfold writes. simpl.
  induction items as [|[k v] items IH]; simpl; [reflexivity|].
  rewrite map_app, IH, map_map. reflexivity.
Qed.

Lemma writes_list_from (l : list json) (prefix : string) (i : nat) :
  map (fun pv => (path_string prefix (fst pv), snd pv))
      (flat_mapi (fun i v => map (under (Idx i)) (leaves v)) l i)
  = flat_mapi (fun i v => writes v (list_key prefix i)) l i.
Proof.
  revert i. induction l as [|x l IH]; intros i; simpl; [reflexivity|].
  rewrite map_app, IH, map_map. reflexivity.
Qed.

Lemma writes_list (l : list json) (prefix : string) :
  writes (JList l) prefix
  = flat_mapi (fun i v => writes v (list_key prefix i)) l 0.
Proof. apply writes_list_from. Qed.

Lemma flatten_dict_fold (items : list (string * json)) (prefix : string)
    (acc : dict scalar) :
  Forall (fun kv => forall prefix,
              NoDup (keys (writes (snd kv) prefix)) ->
              _flatten (snd kv) prefix = writes (snd kv) prefix) items ->
  NoDup (keys (acc ++ writes (JDict items) prefix)%list) ->
  fold_left
    (fun out kv => let '(k, v) := kv in
                   dict_update out (_flatten v (dict_key prefix k)))
    items acc
  = (acc ++ writes (JDict items) prefix)%list.
Proof.
  rewrite writes_dict. intros HF. revert acc.
  induction HF as [|[k v] items Hv _ IH]; intros acc Hnd; simpl.
  - now rewrite app_nil_r.
  - simpl in Hv, Hnd. rewrite app_assoc in Hnd. rewrite Hv.
    + rewrite dict_update_fresh.
      * rewrite IH; [now rewrite <- app_assoc | exact Hnd].
      * rewrite keys_app in Hnd. apply NoDup_app_remove_r in Hnd.
        now rewrite <- keys_app.
    + rewrite !keys_app in Hnd.
      now apply NoDup_app_remove_r, NoDup_app_remove_l in Hnd.
Qed.

Lemma flatten_list_fold (l : list json) (prefix : string) (i : nat)
    (acc : dict scalar) :
  Forall (fun x => forall prefix,
              NoDup (keys (writes x prefix)) ->
              _flatten x prefix = writes x prefix) l ->
  NoDup (keys (acc ++ flat_mapi (fun i v => writes v (list_key prefix i)) l i)%list) ->
  fold_enumerate
    (fun out i v => dict_update out (_flatten v (list_key prefix i))) l i acc
  = (acc ++ flat_mapi (fun i v => writes v (list_key prefix i)) l i)%list.
Proof.
  intros HF. revert i acc.
  induction HF as [|x l Hx _ IH]; intros i acc Hnd; simpl.
  - now rewrite app_nil_r.
  - simpl in Hnd. rewrite app_assoc in Hnd. rewrite Hx.
    + rewrite dict_update_fresh.
      * rewrite IH; [now rewrite <- app_assoc | exact Hnd].
      * rewrite keys_app in Hnd. apply NoDup_app_remove_r in Hnd.
        now rewrite <- keys_app.
    + rewrite !keys_app in Hnd.
      now apply NoDup_app_remove_r, NoDup_app_remove_l in Hnd.
Qed.

(** When the traversal paths spell distinct path strings, the flat record
    holds the entry of every one of them, in the order of the traversal. *)
Lemma flatten_writes (d : json) :
  forall prefix,
    NoDup (keys (writes d prefix)) -> _flatten d prefix = writes d prefix.
Proof.
  induction d as [v|l IH|items IH] using json_ind; intros prefix Hnd.
  - reflexivity.
  - rewrite writes_list in *. simpl.
    now rewrite (flatten_list_fold l prefix 0 [] IH Hnd).
  - simpl. now rewrite (flatten_dict_fold items prefix [] IH Hnd).
Qed.

Lemma writes_as_block (d : dict scalar) :
  writes (as_block d) EmptyString = d.
Proof.
  unfold as_block. rewrite writes_dict.
  induction d as [|[k v] d IH]; simpl; [reflexivity|].
  now rewrite IH.
Qed.

Lemma flatten_as_block (d : dict scalar) :
  dict_ok d -> _flatten (as_block d) EmptyString = d.
Proof.
  intros Hok.
  rewrite flatten_writes; rewrite writes_as_block; [reflexivity | exact Hok].
Qed.

Lemma flatten_idempotent (b : json) (prefix : string) :
  _flatten (as_block (_flatten b prefix)) EmptyString = _flatten b prefix.
Proof. apply flatten_as_block, flatten_ok. Qed.

(** C7. A mapping of one level, from string keys to scalars, is flattened
    to itself, with its keys, its values and their order; so flattening what
    the flattener returned changes nothing. *)
Theorem flatten_flat_is_identity (d : dict scalar) :
  dict_ok d ->
  _flatten (as_block d) EmptyString = d
  /\ keys (_flatten (as_block d) EmptyString) = keys d
  /\ values (_flatten (as_block d) EmptyString) = values d.
Proof.
  intros Hok. now rewrite (flatten_as_block d Hok).
Qed.

Lemma flatten_flat_is_identity_witness :
  _flatten (as_block flat_example) EmptyString = flat_example.
Proof.
  apply (flatten_flat_is_identity flat_example).
  unfold dict_ok. simpl. repeat constructor; simpl; intuition discriminate.
Defined.

(** *** Path strings *)

Lemma any_char_app (p : ascii -> bool) (a b : string) :
  any_char p (a ++ b) = any_char p a || any_char p b.
Proof.
  induction a as [|c a IH]; simpl; [reflexivity|].
  now rewrite IH, orb_assoc.
Qed.

Lemma digit_not_joint (c : ascii) : is_digit c = true -> is_joint c = false.
Proof.
  intros H. apply digit_cases in H. simpl in H.
  repeat (destruct H as [<-|H]; [reflexivity|]). contradiction.
Qed.

Lemma digits_no_joint (s : string) :
  all_chars is_digit s = true -> any_char is_joint s = false.
Proof.
  induction s as [|c s IH]; simpl; [reflexivity|].
  intros H. apply andb_true_iff in H as [Hc Hs].
  now rewrite (digit_not_joint _ Hc), (IH Hs).
Qed.

Lemma string_of_uint_digits (u : Decimal.uint) :
  all_chars is_digit (NilEmpty.string_of_uint u) = true.
Proof. induction u; simpl; auto. Qed.

Lemma str_nat_inj (i j : nat) : str_nat i = str_nat j -> i = j.
Proof.
  unfold str_nat. intros H.
  apply (f_equal NilEmpty.uint_of_string) in H.
  rewrite !NilEmpty.usu in H. injection H as H.
  apply (f_equal Nat.of_uint) in H.
  now rewrite !DecimalNat.Unsigned.of_to in H.
Qed.

Lemma token_joint (s : step) : is_joint (fst (token s)) = true.
Proof. now destruct s. Qed.

Lemma token_body (s : step) :
  plain_step s -> any_char is_joint (snd (token s)) = false.
Proof.
  destruct s as [k|i]; simpl.
  - unfold plain_key. intros H. apply andb_true_iff in H as [_ H].
    now apply negb_true_iff in H.
  - intros _. rewrite any_char_app, digits_no_joint; [reflexivity|].
    apply string_of_uint_digits.
Qed.

Lemma token_inj (s1 s2 : step) : token s1 = token s2 -> s1 = s2.
Proof.
  destruct s1 as [k1|i1], s2 as [k2|i2]; simpl; intros H;
    try discriminate H.
  - now injection H as ->.
  - injection H as H. apply app_inv_tail_s, str_nat_inj in H. now subst.
Qed.

(** The last joint of a string marks where its last part begins. *)
Lemma joint_split (a1 a2 b1 b2 : string) (c1 c2 : ascii) :
  a1 ++ String c1 b1 = a2 ++ String c2 b2 ->
  is_joint c1 = true -> is_joint c2 = true ->
  any_char is_joint b1 = false -> any_char is_joint b2 = false ->
  a1 = a2 /\ c1 = c2 /\ b1 = b2.
Proof.
  intros H J1 J2 F1 F2. revert a2 H.
  induction a1 as [|x a1 IH]; intros [|y a2] H; simpl in H.
  - now injection H as -> ->.
  - injection H as -> ->. rewrite any_char_app in F1. simpl in F1.
    rewrite J2, orb_true_r in F1. discriminate.
  - injection H as -> <-. rewrite any_char_app in F2. simpl in F2.
    rewrite J1, orb_true_r in F2. discriminate.
  - injection H as -> H. destruct (IH _ H) as (-> & -> & ->). auto.
Qed.

Lemma path_string_snoc (prefix : string) (p : path) (s : step) :
  path_string prefix (p ++ [s])%list = step_key (path_string prefix p) s.
Proof.
  revert prefix. induction p as [|s' p IH]; intros prefix; simpl.
  - now destruct s.
  - destruct s'; apply IH.
Qed.

(** The two shapes of a path string that ends with the step [s]. *)
Lemma step_form (x : string) (s : step) :
  (x = EmptyString /\ exists k, s = Key k /\ step_key x s = k)
  \/ step_key x s = x ++ String (fst (token s)) (snd (token s)).
Proof.
  destruct s as [k|i], x as [|a x]; simpl; eauto.
Qed.

Lemma step_key_nonempty (x : string) (s : step) :
  plain_step s -> step_key x s <> EmptyString.
Proof.
  destruct s as [k|i], x as [|a x]; simpl; try discriminate.
  unfold plain_key, dict_key. simpl. destruct k; simpl; discriminate.
Qed.

Lemma path_string_empty (p : path) :
  plain_path p -> path_string EmptyString p = EmptyString -> p = [].
Proof.
  induction p as [|s p _] using rev_ind; [reflexivity|].
  intros Hp H. rewrite path_string_snoc in H.
  apply Forall_app in Hp as [_ Hs]. inversion Hs as [|? ? Hs' _]; subst.
  now apply step_key_nonempty in H.
Qed.

(** Over plain keys, a path string spells one path only. *)
Lemma path_string_inj (p1 : path) :
  plain_path p1 -> forall p2, plain_path p2 ->
  path_string EmptyString p1 = path_string EmptyString p2 -> p1 = p2.
Proof.
  induction p1 as [|s1 p1 IH] using rev_ind; intros Hp1 p2 Hp2 H.
  - symmetry. apply path_string_empty; [exact Hp2 | now rewrite <- H].
  - induction p2 as [|s2 p2 _] using rev_ind.
    + apply path_string_empty; [exact Hp1 | now rewrite H].
    + rewrite !path_string_snoc in H.
      apply Forall_app in Hp1 as [Hp1 Hs1]. inversion Hs1 as [|? ? Hs1' _]; subst.
      apply Forall_app in Hp2 as [Hp2 Hs2]. inversion Hs2 as [|? ? Hs2' _]; subst.
      pose proof (token_body _ Hs1') as F1.
      pose proof (token_body _ Hs2') as F2.
      destruct (step_form (path_string EmptyString p1) s1)
        as [(X1 & k1 & -> & E1)|E1];
        destruct (step_form (path_string EmptyString p2) s2)
          as [(X2 & k2 & -> & E2)|E2];
        rewrite E1, E2 in H.
      * apply path_string_empty in X1; [|exact Hp1].
        apply path_string_empty in X2; [|exact Hp2]. now subst.
      * exfalso. simpl in F1. rewrite H, any_char_app in F1. simpl in F1.
        rewrite token_joint, orb_true_r in F1. discriminate.
      * exfalso. simpl in F2. rewrite <- H, any_char_app in F2. simpl in F2.
        rewrite token_joint, orb_true_r in F2. discriminate.
      * apply joint_split in H as (Hx & Hc & Hb);
          auto using token_joint.
        rewrite (IH Hp1 p2 Hp2 Hx). f_equal. f_equal.
        apply token_inj. now rewrite (surjective_pairing (token s1)),
          (surjective_pairing (token s2)), Hc, Hb.
Qed.

(** *** The traversal paths of a block *)

Lemma in_flat_mapi {A B : Type} (f : nat -> A -> list B) (l : list A)
    (i : nat) (y : B) :
  In y (flat_mapi f l i) -> exists j x, i <= j /\ In x l /\ In y (f j x).
Proof.
  revert i. induction l as [|x l IH]; intros i H; simpl in H; [contradiction|].
  apply in_app_or in H as [H|H].
  - exists i, x. simpl. auto.
  - destruct (IH _ H) as (j & x' & Hj & Hin & Hy).
    exists j, x'. simpl. repeat split; auto. lia.
Qed.

Lemma fst_under (s : step) (l : list (path * scalar)) :
  map fst (map (under s) l) = map (cons s) (map fst l).
Proof. now rewrite !map_map. Qed.

Lemma nodup_under (s : step) (l : list (path * scalar)) :
  NoDup (map fst l) -> NoDup (map fst (map (under s) l)).
Proof.
  intros H. rewrite fst_under.
  apply NoDup_map_NoDup_ForallPairs; [|exact H].
  intros x y _ _ E. now injection E.
Qed.

Lemma leaves_plain (d : json) :
  plain_keys d = true ->
  forall pv, In pv (leaves d) -> plain_path (fst pv).
Proof.
  unfold plain_keys.
  induction d as [v|l IH|items IH] using json_ind; simpl; intros Hk pv Hin.
  - destruct Hin as [<-|[]]. constructor.
  - apply in_flat_mapi in Hin as (j & x & _ & Hx & Hin).
    apply in_map_iff in Hin as (pv' & <- & Hin).
    rewrite Forall_forall in IH. rewrite forallb_forall in Hk.
    constructor; [exact I|]. exact (IH x Hx (Hk x Hx) pv' Hin).
  - apply andb_true_iff in Hk as [Hkeys Hvals].
    apply in_flat_map in Hin as ([k v] & Hkv & Hin).
    apply in_map_iff in Hin as (pv' & <- & Hin).
    rewrite Forall_forall in IH.
    rewrite forallb_forall in Hkeys, Hvals.
    constructor.
    + apply Hkeys. now apply (in_map fst) in Hkv.
    + exact (IH (k, v) Hkv (Hvals (k, v) Hkv) pv' Hin).
Qed.

Lemma nodup_list_leaves (l : list json) (i : nat) :
  Forall (fun x => NoDup (map fst (leaves x))) l ->
  NoDup (map fst (flat_mapi (fun i v => map (under (Idx i)) (leaves v)) l i)).
Proof.
  intros HF. revert i.
  induction HF as [|x l Hx _ IH]; intros i; simpl; [constructor|].
  rewrite map_app. apply NoDup_app.
  - now apply nodup_under.
  - apply IH.
  - intros p H1 H2.
    apply in_map_iff in H1 as (pv1 & <- & H1).
    apply in_map_iff in H1 as (pv1' & <- & _).
    apply in_map_iff in H2 as (pv2 & E & H2).
    apply in_flat_mapi in H2 as (j & y & Hj & _ & H2).
    apply in_map_iff in H2 as (pv2' & <- & _).
    simpl in E. injection E as E _. lia.
Qed.

Lemma distinct_cons (k : string) (l : list string) :
  distinct (k :: l) = true -> ~ In k l /\ distinct l = true.
Proof.
  simpl. intros H. apply andb_true_iff in H as [H1 H2].
  split; [|exact H2]. intros Hin. apply existsb_eqb_In in Hin.
  rewrite Hin in H1. discriminate.
Qed.

Lemma nodup_dict_leaves (items : list (string * json)) :
  distinct (map fst items) = true ->
  Forall (fun kv => NoDup (map fst (leaves (snd kv)))) items ->
  NoDup (map fst (flat_map (fun kv => let '(k, v) := kv in
                                      map (under (Key k)) (leaves v)) items)).
Proof.
  intros Hd HF.
  induction HF as [|[k v] items Hv _ IH]; simpl; [constructor|].
  apply distinct_cons in Hd as [Hk Hd].
  rewrite map_app. apply NoDup_app.
  - now apply nodup_under.
  - now apply IH.
  - intros p H1 H2.
    apply in_map_iff in H1 as (pv1 & <- & H1).
    apply in_map_iff in H1 as (pv1' & <- & _).
    apply in_map_iff in H2 as (pv2 & E & H2).
    apply in_flat_map in H2 as ([k' v'] & Hin & H2).
    apply in_map_iff in H2 as (pv2' & <- & _).
    simpl in E. injection E as E _. subst k'.
    apply Hk. now apply (in_map fst) in Hin.
Qed.

(** Distinct keys in every mapping make the traversal paths distinct. *)
Lemma leaves_nodup (d : json) :
  json_ok d = true -> NoDup (map fst (leaves d)).
Proof.
  unfold json_ok.
  induction d as [v|l IH|items IH] using json_ind; simpl; intros Hok.
  - repeat constructor. auto.
  - apply nodup_list_leaves. rewrite Forall_forall in *.
    rewrite forallb_forall in Hok. auto.
  - apply andb_true_iff in Hok as [Hd Hvals].
    apply nodup_dict_leaves; [exact Hd|].
    rewrite Forall_forall in *. rewrite forallb_forall in Hvals.
    intros [k v] Hin. exact (IH (k, v) Hin (Hvals (k, v) Hin)).
Qed.

Lemma keys_writes (d : json) (prefix : string) :
  keys (writes d prefix) = map (path_string prefix) (map fst (leaves d)).
Proof. unfold keys, writes. now rewrite !map_map. Qed.

(** C6, as amended. In a block whose mappings have distinct keys, none of
    them empty and none with a dot or an opening bracket in it, two distinct
    traversal paths never spell the same path string: the flat record has
    the entry of every traversal path under its own path string, as many
    entries as the block has scalars, and no entry is overwritten. *)
Theorem flatten_paths_unique (d : json) :
  json_ok d = true -> plain_keys d = true ->
  (forall p1 v1 p2 v2,
      In (p1, v1) (leaves d) -> In (p2, v2) (leaves d) ->
      path_string EmptyString p1 = path_string EmptyString p2 -> p1 = p2)
  /\ _flatten d EmptyString = writes d EmptyString
  /\ List.length (_flatten d EmptyString) = List.length (leaves d)
  /\ dict_ok (_flatten d EmptyString).
Proof.
  intros Hok Hplain.
  assert (forall p1 p2,
             In p1 (map fst (leaves d)) -> In p2 (map fst (leaves d)) ->
             path_string EmptyString p1 = path_string EmptyString p2 ->
             p1 = p2) as Hinj.
  { intros p1 p2 H1 H2.
    apply in_map_iff in H1 as (pv1 & <- & H1).
    apply in_map_iff in H2 as (pv2 & <- & H2).
    apply path_string_inj; now apply leaves_plain with (d := d). }
  assert (_flatten d EmptyString = writes d EmptyString) as E.
  { apply flatten_writes. rewrite keys_writes.
    apply NoDup_map_NoDup_ForallPairs; [exact Hinj | now apply leaves_nodup]. }
  repeat split.
  - intros p1 v1 p2 v2 H1 H2. apply Hinj.
    + now apply (in_map fst) in H1.
    + now apply (in_map fst) in H2.
  - exact E.
  - rewrite E. unfold writes. apply length_map.
  - apply flatten_ok.
Qed.

(** C6, as stated, fails: a nested key and a dotted key spell one path
    string, and the second entry takes the place of the first. *)
Lemma flatten_paths_collide :
  json_ok colliding_block = true
  /\ In ([Key "a"; Key "b"], SInt 1) (leaves colliding_block)
  /\ In ([Key "a.b"], SInt 2) (leaves colliding_block)
  /\ [Key "a"; Key "b"] <> [Key "a.b"]
  /\ path_string EmptyString [Key "a"; Key "b"]
     = path_string EmptyString [Key "a.b"]
  /\ _flatten colliding_block EmptyString = [("a.b", SInt 2)].
Proof.
  repeat split; try reflexivity; simpl; auto; discriminate.
Qed.

Lemma flatten_paths_unique_witness :
  _flatten offers_block EmptyString = flat_example
  /\ List.length (_flatten offers_block EmptyString) = 2.
Proof.
  destruct (flatten_paths_unique offers_block eq_refl eq_refl)
    as (_ & E & L & _).
  split; [exact E | exact L].
Defined.

(* ===================================================================== *)
(** ** The record correlator *)
(* ===================================================================== *)

Lemma record_step_add (flat : record) (recs : list record) (k : string)
    (v : scalar) :
  record_step flat recs (k, v)
  = if is_trigger k v then add_record recs (cluster flat (parent_of k))
    else recs.
Proof.
  unfold record_step, is_trigger, add_record.
  destruct (is_plain v); simpl; [|reflexivity].
  now destruct (any_in SIZE_KEY_TOKENS (lower k)).
Qed.

Lemma add_record_inv (recs : list record) (rec r : record) :
  In r (add_record recs rec) -> In r recs \/ (r = rec /\ rec <> []).
Proof.
  unfold add_record. destruct rec as [|e rec]; [auto|].
  destruct (record_in (e :: rec) recs); [auto|].
  intros H. apply in_app_or in H as [H|[<-|[]]]; [auto|].
  right. split; [reflexivity | discriminate].
Qed.

Lemma add_record_keeps (recs : list record) (rec r : record) :
  In r recs -> In r (add_record recs rec).
Proof.
  unfold add_record. destruct rec as [|e rec]; [auto|].
  destruct (record_in (e :: rec) recs); [auto|].
  intros H. apply in_or_app. now left.
Qed.

(** A record that is not empty is in the list once it was added, itself or
    as a record equal to it that was there before. *)
Lemma add_record_has (recs : list record) (rec : record) :
  rec <> [] ->
  exists r, In r (add_record recs rec)
            /\ (r = rec \/ dict_eqb scalar_eqb r rec = true).
Proof.
  unfold add_record. destruct rec as [|e rec]; [congruence|]. intros _.
  destruct (record_in (e :: rec) recs) eqn:E.
  - unfold record_in in E. apply existsb_exists in E as (r & Hin & Heq). eauto.
  - exists (e :: rec). split; [|now left]. apply in_or_app. right. now left.
Qed.

Lemma prefix_refl (s : string) : prefix s s = true.
Proof. rewrite <- (app_empty_r s) at 2. apply prefix_app. Qed.

Lemma rsplit1_head_prefix (k : string) : prefix (rsplit1_head k) k = true.
Proof.
  induction k as [|c k IH]; [reflexivity|].
  cbn [rsplit1_head]. destruct (contains "." k).
  - simpl. destruct (ascii_dec c c) as [_|N]; [exact IH | now elim N].
  - destruct (c =? ".")%char; [reflexivity | apply prefix_refl].
Qed.

Lemma parent_of_dot (k : string) :
  nonempty (parent_of k) = true -> contains "." k = true.
Proof. unfold parent_of. now destruct (contains "." k). Qed.

Lemma cluster_no_parent (flat : record) : cluster flat EmptyString = [].
Proof. unfold cluster. induction flat as [|e flat IH]; simpl; auto. Qed.

Lemma cluster_nonempty (flat : record) (parent : string) :
  cluster flat parent <> [] -> nonempty parent = true.
Proof.
  destruct parent; [|reflexivity]. now rewrite cluster_no_parent.
Qed.

(** An entry is in the cluster of its own parent. *)
Lemma cluster_has_trigger (flat : record) (k : string) (v : scalar) :
  In (k, v) flat -> nonempty (parent_of k) = true ->
  In (k, v) (cluster flat (parent_of k)).
Proof.
  intros Hin Hp. unfold cluster. apply filter_In. split; [exact Hin|].
  rewrite Hp. simpl. unfold startswith, parent_of in *.
  destruct (contains "." k); [apply rsplit1_head_prefix | discriminate].
Qed.

Lemma inner_loop_keeps (flat es : record) (recs : list record) (r : record) :
  In r recs -> In r (fold_left (record_step flat) es recs).
Proof.
  revert recs. induction es as [|[k v] es IH]; intros recs H; cbn [fold_left];
    [exact H|].
  apply IH. rewrite record_step_add.
  destruct (is_trigger k v); [now apply add_record_keeps | exact H].
Qed.

Lemma inner_loop_inv (flat es : record) (recs : list record) (r : record) :
  In r (fold_left (record_step flat) es recs) ->
  In r recs
  \/ exists k v, In (k, v) es /\ is_trigger k v = true
                 /\ r = cluster flat (parent_of k) /\ r <> [].
Proof.
  revert recs. induction es as [|[k v] es IH]; intros recs H;
    cbn [fold_left] in H; [auto|].
  destruct (IH _ H) as [H'|(k' & v' & Hin & Ht & Hr)].
  - rewrite record_step_add in H'. destruct (is_trigger k v) eqn:Ht; [|auto].
    apply add_record_inv in H' as [H'|[-> Hne]]; [auto|].
    right. exists k, v. simpl. auto.
  - right. exists k', v'. simpl. auto.
Qed.

Lemma inner_loop_has (flat es : record) (recs : list record) (k : string)
    (v : scalar) :
  In (k, v) es -> is_trigger k v = true -> cluster flat (parent_of k) <> [] ->
  exists r, In r (fold_left (record_step flat) es recs)
            /\ (r = cluster flat (parent_of k)
                \/ dict_eqb scalar_eqb r (cluster flat (parent_of k)) = true).
Proof.
  revert recs. induction es as [|[k' v'] es IH]; intros recs Hin Ht Hne;
    cbn [fold_left]; simpl in Hin; [contradiction|].
  destruct Hin as [[= -> ->]|Hin]; [|now apply IH].
  rewrite record_step_add, Ht.
  destruct (add_record_has recs _ Hne) as (r & Hr & Heq).
  exists r. split; [now apply inner_loop_keeps | exact Heq].
Qed.

Lemma outer_loop_keeps (blocks : list json) (recs : list record) (r : record) :
  In r recs ->
  In r (fold_left
          (fun recs b => let flat := _flatten b EmptyString in
                         fold_left (record_step flat) flat recs)
          blocks recs).
Proof.
  revert recs. induction blocks as [|b blocks IH]; intros recs H; simpl;
    [exact H|].
  apply IH. now apply inner_loop_keeps.
Qed.

Lemma contains_dot_app (a b : string) : contains "." (a ++ "." ++ b) = true.
Proof. apply contains_iff. now exists a, b. Qed.

(** The text before the last dot. *)
Lemma rsplit1_head_split (a b : string) :
  contains "." b = false -> rsplit1_head (a ++ "." ++ b) = a.
Proof.
  intros Hb. induction a as [|c a IH].
  - change (EmptyString ++ "." ++ b) with (String "." b).
    cbn [rsplit1_head]. now rewrite Hb.
  - change (String c a ++ "." ++ b) with (String c (a ++ "." ++ b)).
    cbn [rsplit1_head]. now rewrite contains_dot_app, IH.
Qed.

Lemma rsplit1_head_inv (k : string) :
  contains "." k = true ->
  exists b, k = rsplit1_head k ++ "." ++ b /\ contains "." b = false.
Proof.
  induction k as [|c k IH]; [discriminate|].
  cbn [rsplit1_head]. destruct (contains "." k) eqn:E.
  - intros _. destruct (IH eq_refl) as (b & Hk & Hb).
    exists b. split; [|exact Hb].
    change (String c (rsplit1_head k) ++ "." ++ b)
      with (String c (rsplit1_head k ++ "." ++ b)).
    now rewrite <- Hk.
  - destruct (Ascii.eqb_spec c ".") as [->|Hc].
    + intros _. exists k. split; [reflexivity | exact E].
    + intros H. exfalso. cbn [contains] in H. rewrite E, orb_false_r in H.
      cbn [prefix] in H. destruct (ascii_dec "." c) as [<-|_];
        [now elim Hc | discriminate].
Qed.

Lemma parent_of_split (a b : string) :
  contains "." b = false -> parent_of (a ++ "." ++ b) = a.
Proof.
  intros Hb. unfold parent_of.
  now rewrite contains_dot_app, rsplit1_head_split.
Qed.

Lemma parent_of_inv (k : string) :
  nonempty (parent_of k) = true ->
  exists b, k = parent_of k ++ "." ++ b /\ contains "." b = false.
Proof.
  unfold parent_of. destruct (contains "." k) eqn:E; [|discriminate].
  intros _. now apply rsplit1_head_inv.
Qed.

(** C5, as amended. An entry of a flat record starts a cluster exactly when
    its value is a string, a number or a boolean and its whole path,
    lower-cased, holds one of the tokens size, variant, sku, label, name,
    in whichever segment. Every candidate record is the cluster of such an
    entry around its parent, the text before the last dot of its path, which
    is not empty; every such entry with a parent that is not empty has its
    cluster among the candidate records, itself or as an equal record found
    before; and an entry adds nothing when it is no trigger, when its path
    has no dot, or when the only dot of its path is its first character, as
    in the block with the keys [.size] and [.stock]. *)
Theorem correlator_trigger (blocks : list json) :
  (forall k v,
      is_trigger k v = true <->
      is_plain v = true
      /\ exists tok, In tok SIZE_KEY_TOKENS /\ contains tok (lower k) = true)
  /\ (forall r,
        In r (_find_size_records blocks) ->
        exists b parent segment v,
          In b blocks
          /\ In (parent ++ "." ++ segment, v) (_flatten b EmptyString)
          /\ is_trigger (parent ++ "." ++ segment) v = true
          /\ parent <> EmptyString /\ contains "." segment = false
          /\ r = cluster (_flatten b EmptyString) parent /\ r <> [])
  /\ (forall b parent segment v,
        In b blocks ->
        In (parent ++ "." ++ segment, v) (_flatten b EmptyString) ->
        is_trigger (parent ++ "." ++ segment) v = true ->
        parent <> EmptyString -> contains "." segment = false ->
        exists r,
          In r (_find_size_records blocks)
          /\ (r = cluster (_flatten b EmptyString) parent
              \/ dict_eqb scalar_eqb r
                   (cluster (_flatten b EmptyString) parent) = true))
  /\ (forall flat recs k v,
        is_trigger k v = false \/ contains "." k = false
        \/ (exists segment,
               k = "." ++ segment /\ contains "." segment = false) ->
        record_step flat recs (k, v) = recs)
  /\ is_trigger ".size" (SStr "L") = true
  /\ _flatten dot_key_block EmptyString
     = [(".size", SStr "L"); (".stock", SInt 1)]
  /\ _find_size_records [dot_key_block] = [].
Proof.
  split; [|split; [|split; [|split]]].
  - intros k v. unfold is_trigger, any_in.
    rewrite andb_true_iff, existsb_exists. reflexivity.
  - unfold _find_size_records.
    assert (forall recs r,
               In r (fold_left
                       (fun recs b => let flat := _flatten b EmptyString in
                                      fold_left (record_step flat) flat recs)
                       blocks recs) ->
               In r recs
               \/ exists b parent segment v,
                   In b blocks
                   /\ In (parent ++ "." ++ segment, v)
                         (_flatten b EmptyString)
                   /\ is_trigger (parent ++ "." ++ segment) v = true
                   /\ parent <> EmptyString /\ contains "." segment = false
                   /\ r = cluster (_flatten b EmptyString) parent
                   /\ r <> []) as Hgen.
    { induction blocks as [|b blocks IH]; intros recs r H; simpl in H; [auto|].
      destruct (IH _ _ H) as [H'|(b' & parent & segment & v & Hb & Hrest)].
      - apply inner_loop_inv in H' as [H'|(k & v & Hin & Ht & Hr & Hne)];
          [auto|].
        right.
        assert (nonempty (parent_of k) = true) as Hp.
        { apply (cluster_nonempty (_flatten b EmptyString)).
          now rewrite <- Hr. }
        destruct (parent_of_inv _ Hp) as (segment & Hk & Hseg).
        exists b, (parent_of k), segment, v. rewrite <- Hk.
        repeat split; simpl; auto.
        intros E. rewrite E in Hp. discriminate.
      - right. exists b', parent, segment, v. simpl. tauto. }
    intros r H. destruct (Hgen [] r H) as [[]|H']. exact H'.
  - intros b parent segment v Hb Hin Ht Hparent Hseg.
    assert (parent_of (parent ++ "." ++ segment) = parent) as Hp
        by now apply parent_of_split.
    assert (nonempty (parent_of (parent ++ "." ++ segment)) = true) as Hne.
    { rewrite Hp. destruct parent; [now elim Hparent | reflexivity]. }
    pose proof (cluster_has_trigger _ _ _ Hin Hne) as Hown.
    rewrite Hp in Hown.
    revert Hb. unfold _find_size_records. generalize (@nil record).
    induction blocks as [|b' blocks IH]; intros recs Hb;
      simpl in *; [contradiction|].
    destruct Hb as [->|Hb]; [|now apply IH].
    destruct (inner_loop_has (_flatten b EmptyString) (_flatten b EmptyString)
                recs _ v Hin Ht) as (r & Hr & Heq).
    { rewrite Hp. intros E. rewrite E in Hown. contradiction. }
    rewrite Hp in Heq.
    exists r. split; [now apply outer_loop_keeps | exact Heq].
  - intros flat recs k v H. rewrite record_step_add.
    destruct (is_trigger k v); [|reflexivity].
    destruct H as [H|[H|(segment & -> & Hseg)]]; [discriminate| |].
    + unfold parent_of. rewrite H. now rewrite cluster_no_parent.
    + change ("." ++ segment) with (EmptyString ++ "." ++ segment).
      rewrite (parent_of_split EmptyString _ Hseg).
      now rewrite cluster_no_parent.
  - repeat split; reflexivity.
Qed.

(** C5, as stated, fails both ways: a path whose last segment has no token
    starts a cluster when an earlier segment has one, and a path whose last
    segment has a token starts none over a null. *)
Lemma trigger_on_earlier_segment :
  final_segment "size.value" = "value"
  /\ final_segment_trigger "size.value" (SStr "L") = false
  /\ _flatten size_value_block EmptyString = [("size.value", SStr "L")]
  /\ _find_size_records [size_value_block] = [[("size.value", SStr "L")]]
  /\ final_segment_trigger "a.size" SNone = false
  /\ any_in SIZE_KEY_TOKENS (lower (final_segment "a.size")) = true
  /\ _flatten null_size_block EmptyString
     = [("a.size", SNone); ("a.stock", SInt 1)]
  /\ _find_size_records [null_size_block] = [].
Proof. repeat split; reflexivity. Qed.

Lemma correlator_trigger_witness :
  exists r,
    In r (_find_size_records [offers_block])
    /\ (r = flat_example \/ dict_eqb scalar_eqb r flat_example = true).
Proof.
  destruct (correlator_trigger [offers_block]) as (_ & _ & Hhas & _).
  destruct (Hhas offers_block "offers[0]" "size" (SStr "Large"))
    as (r & Hr & Heq).
  - now left.
  - vm_compute. now left.
  - reflexivity.
  - discriminate.
  - reflexivity.
  - exists r. split; [exact Hr | exact Heq].
Defined.

(* ===================================================================== *)
(** ** The fields of a record, and the scenarios of the specification *)
(* ===================================================================== *)

Section FieldsFacts.
Variable float_str : float -> string.

Lemma fields_fold (rec : record) (acc : dict string) :
  NoDup (keys acc ++ keys (map (field_of float_str) (plain_entries rec))) ->
  fold_left
    (fun acc kv => let '(k, v) := kv in
                   if is_plain v then dict_set acc (lower k) (strip (str float_str v))
                   else acc)
    rec acc
  = (acc ++ map (field_of float_str) (plain_entries rec))%list.
Proof.
  revert acc. induction rec as [|[k v] rec IH]; intros acc H; simpl.
  - now rewrite app_nil_r.
  - unfold plain_entries in *. simpl in H. destruct (is_plain v); simpl in H.
    + rewrite dict_set_fresh.
      * rewrite IH; [now rewrite <- app_assoc|].
        rewrite keys_app, <- app_assoc. exact H.
      * apply NoDup_remove_2 in H. intros Hin. apply H, in_or_app. now left.
    + now apply IH.
Qed.

(** When no two keys of a record differ in case only, its fields are its
    entries, one by one. *)
Lemma fields_distinct (rec : record) :
  NoDup (map (fun kv => lower (fst kv)) (plain_entries rec)) ->
  fields float_str rec = map (field_of float_str) (plain_entries rec).
Proof.
  intros H. unfold fields. rewrite fields_fold; [reflexivity|].
  simpl. unfold keys. now rewrite map_map.
Qed.

(** Then a quantity-like entry of the record is a quantity-like value. *)
Lemma quantity_entry_is_value (rec : record) (k : string) (v : scalar) :
  NoDup (map (fun kv => lower (fst kv)) (plain_entries rec)) ->
  In (k, v) rec -> is_plain v = true ->
  any_in QTY_FIELD_TOKENS (lower k) = true ->
  In (strip (str float_str v))
     (values_where QTY_FIELD_TOKENS (fields float_str rec)).
Proof.
  intros Hnd Hin Hv Hk. rewrite (fields_distinct _ Hnd).
  unfold values_where, values. apply in_map_iff.
  exists (field_of float_str (k, v)). split; [reflexivity|].
  apply filter_In. split; [|exact Hk].
  apply in_map. apply filter_In. auto.
Qed.

(** Scenario A: an offer of size Large, in stock. *)
Example scenario_a :
  _interpret_availability float_str (_find_size_records [offers_block]) "Large"
  = Return (Some (true, "InStock")).
Proof. reflexivity. Qed.

(** Scenario B: the second variant has the size and a quantity of 3. *)
Example scenario_b :
  _interpret_availability float_str (_find_size_records [variants_block])
                          "Large"
  = Return (Some (true, "quantity=3")).
Proof. reflexivity. Qed.
End FieldsFacts.

(** Scenario C: the size, then a sold-out phrase. *)
Example scenario_c :
  _fallback_text (plain_page "Size Large Sold Out") "Large"
  = Some (false, "text: out of stock").
Proof. reflexivity. Qed.

(** The size, an en dash or an em dash, then a sold-out phrase. *)
Example scenario_dash :
  _fallback_text (plain_page "Large – Sold Out") "Large"
  = Some (false, "text: out of stock")
  /\ _fallback_text (plain_page "Large— unavailable") "large"
     = Some (false, "text: out of stock").
Proof. split; reflexivity. Qed.

(** Scenario E: the size is not on the page, an add-to-bag phrase is. *)
Example scenario_e :
  _fallback_text (plain_page "Classic Tee - Add to Bag") "XL"
  = Some (true, "text: add to bag found").
Proof. reflexivity. Qed.

(* ===================================================================== *)
(** ** More on the flattener: any block, whatever its keys *)
(* ===================================================================== *)

Section DictLookup.
Context {V : Type}.
Implicit Types (d a b : dict V) (k : string) (v : V).

Lemma dict_get_app a b k :
  dict_get (a ++ b)%list k
  = match dict_get a k with Some v => Some v | None => dict_get b k end.
Proof.
  induction a as [|[k' v'] a IH]; simpl; [reflexivity|].
  now destruct (String.eqb k' k).
Qed.

Lemma dict_get_set d k v k' :
  dict_get (dict_set d k v) k'
  = if String.eqb k k' then Some v else dict_get d k'.
Proof.
  induction d as [|[k0 v0] d IH]; simpl; [reflexivity|].
  destruct (String.eqb_spec k0 k) as [->|Hne]; simpl.
  - now destruct (String.eqb k k').
  - rewrite IH. destruct (String.eqb_spec k0 k') as [->|_]; [|reflexivity].
    destruct (String.eqb_spec k k') as [->|_]; [now elim Hne | reflexivity].
Qed.

(** After an update, a key reads what was written to it last, and what it
    held before when nothing was. *)
Lemma dict_get_update a b k :
  dict_get (dict_update a b) k
  = match dict_get (rev b) k with Some v => Some v | None => dict_get a k end.
Proof.
  unfold dict_update. revert a.
  induction b as [|[k1 v1] b IH]; intros a; simpl; [reflexivity|].
  rewrite IH, dict_get_app, dict_get_set. simpl.
  destruct (dict_get (rev b) k); [reflexivity|].
  now destruct (String.eqb k1 k).
Qed.

Lemma dict_get_in d k v : dict_get d k = Some v -> In (k, v) d.
Proof.
  induction d as [|[k' v'] d IH]; simpl; [discriminate|].
  destruct (String.eqb_spec k' k) as [->|_].
  - intros [= ->]. now left.
  - intros H. right. now apply IH.
Qed.

Lemma dict_get_none d k : dict_get d k = None <-> ~ In k (keys d).
Proof.
  induction d as [|[k' v'] d IH]; simpl; [tauto|].
  destruct (String.eqb_spec k' k) as [->|Hne].
  - split; [discriminate | tauto].
  - rewrite IH. tauto.
Qed.

Lemma dict_get_of_in d k v : dict_ok d -> In (k, v) d -> dict_get d k = Some v.
Proof.
  unfold dict_ok.
  induction d as [|[k' v'] d IH]; simpl; intros Hok Hin; [contradiction|].
  apply NoDup_cons_iff in Hok as [Hk Hok].
  destruct Hin as [[= -> ->]|Hin].
  - now rewrite String.eqb_refl.
  - destruct (String.eqb_spec k' k) as [->|_]; [|now apply IH].
    elim Hk. now apply (in_map fst) in Hin.
Qed.

(** In a dict, a lookup does not depend on the order of the entries. *)
Lemma dict_get_rev d k : dict_ok d -> dict_get (rev d) k = dict_get d k.
Proof.
  intros Hok. destruct (dict_get d k) as [v|] eqn:E.
  - apply dict_get_of_in.
    + unfold dict_ok, keys in *. rewrite map_rev. now apply NoDup_rev.
    + apply in_rev. rewrite rev_involutive. now apply dict_get_in.
  - apply dict_get_none. apply dict_get_none in E.
    unfold keys in *. rewrite map_rev. now rewrite <- in_rev.
Qed.
End DictLookup.

Lemma flatten_dict_lookup (items : list (string * json)) (prefix k : string)
    (acc : dict scalar) :
  Forall (fun kv => forall prefix k,
              dict_get (_flatten (snd kv) prefix) k
              = dict_get (rev (writes (snd kv) prefix)) k) items ->
  dict_get
    (fold_left
       (fun out kv => let '(k, v) := kv in
                      dict_update out (_flatten v (dict_key prefix k)))
       items acc) k
  = match dict_get (rev (writes (JDict items) prefix)) k with
    | Some v => Some v
    | None => dict_get acc k
    end.
Proof.
  rewrite writes_dict. intros HF. revert acc.
  induction HF as [|[k' v'] items Hv _ IH]; intros acc; simpl; [reflexivity|].
  rewrite IH, dict_get_update, rev_app_distr, dict_get_app.
  rewrite (dict_get_rev _ _ (flatten_ok _ _)). simpl in Hv. rewrite Hv.
  now destruct (dict_get (rev (flat_map _ items)) k).
Qed.

Lemma flatten_list_lookup (l : list json) (prefix k : string) (i : nat)
    (acc : dict scalar) :
  Forall (fun x => forall prefix k,
              dict_get (_flatten x prefix) k
              = dict_get (rev (writes x prefix)) k) l ->
  dict_get
    (fold_enumerate
       (fun out i v => dict_update out (_flatten v (list_key prefix i)))
       l i acc) k
  = match dict_get
            (rev (flat_mapi (fun i v => writes v (list_key prefix i)) l i)) k
    with
    | Some v => Some v
    | None => dict_get acc k
    end.
Proof.
  intros HF. revert i acc.
  induction HF as [|x l Hx _ IH]; intros i acc; simpl; [reflexivity|].
  rewrite IH, dict_get_update, rev_app_distr, dict_get_app.
  rewrite (dict_get_rev _ _ (flatten_ok _ _)), Hx.
  destruct (dict_get (rev (flat_mapi _ _ _)) k); reflexivity.
Qed.

Lemma flatten_lookup (d : json) :
  forall prefix k,
    dict_get (_flatten d prefix) k = dict_get (rev (writes d prefix)) k.
Proof.
  induction d as [v|l IH|items IH] using json_ind; intros prefix k.
  - reflexivity.
  - rewrite writes_list. cbn [_flatten].
    rewrite (flatten_list_lookup l prefix k 0 [] IH).
    destruct (dict_get (rev _) k); reflexivity.
  - cbn [_flatten]. rewrite (flatten_dict_lookup items prefix k [] IH).
    destruct (dict_get (rev _) k); reflexivity.
Qed.

Lemma in_keys_iff_get {V : Type} (d : dict V) (k : string) :
  In k (keys d) <-> exists v, dict_get d k = Some v.
Proof.
  destruct (dict_get d k) as [v|] eqn:E.
  - split; [eauto|]. intros _. apply dict_get_in in E.
    now apply (in_map fst) in E.
  - apply dict_get_none in E. split; [tauto|]. intros [v Hv]. discriminate.
Qed.

Lemma flatten_keys (d : json) (prefix k : string) :
  In k (keys (_flatten d prefix)) <-> In k (keys (writes d prefix)).
Proof.
  rewrite !in_keys_iff_get, flatten_lookup.
  rewrite <- !in_keys_iff_get. unfold keys. rewrite map_rev.
  symmetry. apply in_rev.
Qed.

(** X1. For every block, whatever its keys: the keys of the flat record are
    the path strings of the traversal paths, each once, and under a path
    string stands the scalar of the last traversal path that spells it. *)
Theorem flatten_last_write (d : json) (prefix k : string) :
  dict_get (_flatten d prefix) k = dict_get (rev (writes d prefix)) k
  /\ (In k (keys (_flatten d prefix)) <->
      exists p v, In (p, v) (leaves d) /\ k = path_string prefix p)
  /\ NoDup (keys (_flatten d prefix)).
Proof.
  split; [apply flatten_lookup|]. split; [|apply flatten_ok].
  rewrite flatten_keys. unfold keys, writes. rewrite map_map. simpl.
  rewrite in_map_iff. split.
  - intros ([p v] & E & Hin). exists p, v. auto.
  - intros (p & v & Hin & E). exists (p, v). auto.
Qed.

Lemma path_string_extends (p : path) :
  forall prefix, exists rest, path_string prefix p = prefix ++ rest.
Proof.
  induction p as [|s p IH]; intros prefix; simpl.
  - exists EmptyString. now rewrite app_empty_r.
  - assert (exists x, step_key prefix s = prefix ++ x) as [x Hx].
    { destruct s as [k|i]; simpl; unfold dict_key, list_key;
        destruct prefix as [|a prefix]; simpl; eauto. }
    destruct s as [k|i]; simpl in Hx; destruct (IH (prefix ++ x)) as [rest E];
      rewrite Hx, E, app_assoc_s; eauto.
Qed.

(** X2. Every path of the flat record of a value starts with the prefix the
    value was flattened under, the flat record never has more entries than
    the block has scalars, and a block without scalars (empty mappings and
    sequences only) leaves no entry at all. *)
Theorem flatten_under_prefix (d : json) (prefix : string) :
  (forall k v, In (k, v) (_flatten d prefix) -> startswith k prefix = true)
  /\ List.length (_flatten d prefix) <= List.length (leaves d)
  /\ (leaves d = [] -> _flatten d prefix = []).
Proof.
  assert (forall k, In k (keys (_flatten d prefix)) ->
                    In k (keys (writes d prefix))) as Hsub
      by (intros k; apply flatten_keys).
  split; [|split].
  - intros k v Hin0.
    assert (In k (keys (writes d prefix))) as Hin
        by (apply Hsub; apply (in_map fst) in Hin0; exact Hin0).
    unfold keys, writes in Hin. rewrite map_map in Hin.
    apply in_map_iff in Hin as ([p v'] & <- & _). simpl.
    destruct (path_string_extends p prefix) as [rest ->].
    apply prefix_app.
  - replace (List.length (_flatten d prefix))
      with (List.length (keys (_flatten d prefix)))
      by (unfold keys; apply length_map).
    replace (List.length (leaves d))
      with (List.length (keys (writes d prefix)))
      by (unfold keys, writes; now rewrite !length_map).
    apply NoDup_incl_length; [apply flatten_ok | exact Hsub].
  - intros Hl. destruct (_flatten d prefix) as [|[k v] rest] eqn:E;
      [reflexivity|].
    assert (In k (keys (writes d prefix))) as Hin
        by (apply Hsub; now left).
    unfold writes in Hin. now rewrite Hl in Hin.
Qed.

(* ===================================================================== *)
(** ** More on the record correlator *)
(* ===================================================================== *)

Lemma outer_loop_inv (blocks : list json) (recs : list record) (r : record) :
  In r (fold_left
          (fun recs b => let flat := _flatten b EmptyString in
                         fold_left (record_step flat) flat recs)
          blocks recs) ->
  In r recs
  \/ exists b k v,
      In b blocks /\ In (k, v) (_flatten b EmptyString)
      /\ is_trigger k v = true
      /\ r = cluster (_flatten b EmptyString) (parent_of k) /\ r <> [].
Proof.
  revert recs. induction blocks as [|b blocks IH]; intros recs H;
    cbn [fold_left] in H; [auto|].
  destruct (IH _ H) as [H'|(b' & k & v & Hb & Hrest)].
  - apply inner_loop_inv in H' as [H'|(k & v & Hin & Ht & Hr & Hne)]; [auto|].
    right. exists b, k, v. simpl. auto.
  - right. exists b', k, v. simpl. tauto.
Qed.

Lemma cluster_ok (flat : record) (parent : string) :
  dict_ok flat -> dict_ok (cluster flat parent).
Proof.
  unfold dict_ok, cluster, keys.
  induction flat as [|[k v] flat IH]; simpl; intros H; [constructor|].
  apply NoDup_cons_iff in H as [Hk H].
  destruct (nonempty parent && startswith k parent); simpl; [|now apply IH].
  constructor; [|now apply IH].
  intros Hin. apply Hk. apply in_map_iff in Hin as (kv & E & Hin).
  apply filter_In in Hin as [Hin _]. apply in_map_iff. eauto.
Qed.

(** X3. Every candidate record is a part of the flat record of one block:
    it holds the entry that started it, all its entries are entries of that
    flat record whose paths start with one non-empty parent, the text before
    the last dot of the starting path, and no path stands in it twice. *)
Theorem candidate_record_shape (blocks : list json) (r : record) :
  In r (_find_size_records blocks) ->
  exists b k v,
    In b blocks /\ is_trigger k v = true /\ In (k, v) r
    /\ nonempty (parent_of k) = true
    /\ (forall k' v', In (k', v') r <->
                      In (k', v') (_flatten b EmptyString)
                      /\ startswith k' (parent_of k) = true)
    /\ dict_ok r.
Proof.
  intros H. unfold _find_size_records in H.
  apply outer_loop_inv in H as [[]|(b & k & v & Hb & Hin & Ht & -> & Hne)].
  pose proof (cluster_nonempty _ _ Hne) as Hp.
  exists b, k, v. repeat split; auto.
  - now apply cluster_has_trigger.
  - apply filter_In in H. tauto.
  - apply filter_In in H as [_ H]. rewrite Hp in H. exact H.
  - intros [H1 H2]. apply filter_In. simpl. now rewrite Hp, H2.
  - apply cluster_ok, flatten_ok.
Qed.

Lemma candidate_record_shape_witness :
  exists b k v,
    In b [offers_block] /\ is_trigger k v = true /\ In (k, v) flat_example
    /\ nonempty (parent_of k) = true
    /\ (forall k' v', In (k', v') flat_example <->
                      In (k', v') (_flatten b EmptyString)
                      /\ startswith k' (parent_of k) = true)
    /\ dict_ok flat_example.
Proof.
  apply (candidate_record_shape [offers_block] flat_example).
  vm_compute. now left.
Defined.

Lemma fop_snoc {A : Type} (R : A -> A -> Prop) (l : list A) (x : A) :
  ForallOrdPairs R l -> Forall (fun a => R a x) l ->
  ForallOrdPairs R (l ++ [x]).
Proof.
  induction 1 as [|a l Ha Hl IH]; intros Hx; simpl.
  - constructor; constructor.
  - inversion Hx as [|? ? Hax Hlx]; subst. constructor.
    + apply Forall_app. split; [exact Ha | now constructor].
    + now apply IH.
Qed.

Lemma add_record_deduped (recs : list record) (rec : record) :
  ForallOrdPairs (fun a b => dict_eqb scalar_eqb a b = false) recs ->
  ForallOrdPairs (fun a b => dict_eqb scalar_eqb a b = false)
                 (add_record recs rec).
Proof.
  intros H. unfold add_record. destruct rec as [|e rec]; [exact H|].
  destruct (record_in (e :: rec) recs) eqn:E; [exact H|].
  apply fop_snoc; [exact H|]. apply Forall_forall. intros a Ha.
  unfold record_in in E.
  destruct (dict_eqb scalar_eqb a (e :: rec)) eqn:Ea; [|reflexivity].
  assert (existsb (fun r' => dict_eqb scalar_eqb r' (e :: rec)) recs = true)
    as X by (apply existsb_exists; eauto).
  congruence.
Qed.

Lemma inner_loop_deduped (flat es : record) (recs : list record) :
  ForallOrdPairs (fun a b => dict_eqb scalar_eqb a b = false) recs ->
  ForallOrdPairs (fun a b => dict_eqb scalar_eqb a b = false)
                 (fold_left (record_step flat) es recs).
Proof.
  revert recs. induction es as [|[k v] es IH]; intros recs H;
    cbn [fold_left]; [exact H|].
  apply IH. rewrite record_step_add.
  destruct (is_trigger k v); [now apply add_record_deduped | exact H].
Qed.

(** X4. The candidate records are de-duplicated across all the blocks: no
    record of the result is equal, as Python compares dicts, to a record
    that comes later in it. *)
Theorem find_size_records_deduped (blocks : list json) :
  ForallOrdPairs (fun a b => dict_eqb scalar_eqb a b = false)
                 (_find_size_records blocks).
Proof.
  unfold _find_size_records.
  assert (forall recs,
             ForallOrdPairs (fun a b => dict_eqb scalar_eqb a b = false) recs ->
             ForallOrdPairs (fun a b => dict_eqb scalar_eqb a b = false)
               (fold_left
                  (fun recs b => let flat := _flatten b EmptyString in
                                 fold_left (record_step flat) flat recs)
                  blocks recs)) as Hgen.
  { induction blocks as [|b blocks IH]; intros recs H; cbn [fold_left];
      [exact H|].
    apply IH. now apply inner_loop_deduped. }
  apply Hgen. constructor.
Qed.

Section TopLevel.
Variable float_str : float -> string.

(** X5. Blocks whose paths have no dot, such as a product described by the
    top-level keys of its JSON-LD block, give no candidate record, so the
    structured path decides nothing from them, whatever the target. *)
Theorem top_level_blocks_unseen (blocks : list json) (target_size : string) :
  (forall b k, In b blocks -> In k (keys (_flatten b EmptyString)) ->
               contains "." k = false) ->
  _find_size_records blocks = []
  /\ _interpret_availability float_str (_find_size_records blocks) target_size
     = Return None.
Proof.
  intros Hflat.
  assert (_find_size_records blocks = []) as E.
  { destruct (_find_size_records blocks) as [|r rs] eqn:E; [reflexivity|].
    exfalso.
    assert (In r (_find_size_records blocks)) as Hr by (rewrite E; now left).
    unfold _find_size_records in Hr.
    apply outer_loop_inv in Hr as [[]|(b & k & v & Hb & Hin & _ & Hr & Hne)].
    rewrite Hr in Hne. apply cluster_nonempty, parent_of_dot in Hne.
    rewrite (Hflat b k Hb) in Hne; [discriminate|].
    now apply (in_map fst) in Hin. }
  now rewrite E.
Qed.
End TopLevel.

Lemma top_level_blocks_unseen_witness :
  _find_size_records [top_level_block] = []
  /\ _interpret_availability float_str_const
       (_find_size_records [top_level_block]) "L" = Return None.
Proof.
  apply (top_level_blocks_unseen float_str_const [top_level_block] "L").
  intros b k [<-|[]] Hk. vm_compute in Hk.
  repeat (destruct Hk as [<-|Hk]; [reflexivity|]). contradiction.
Defined.

(* ===================================================================== *)
(** ** More on the availability interpreter *)
(* ===================================================================== *)

Lemma is_space_lower (c : ascii) : is_space (lower_char c) = is_space c.
Proof. each_char c; reflexivity. Qed.

Lemma lstrip_lower (s : string) : lstrip (lower s) = lower (lstrip s).
Proof.
  induction s as [|c s IH]; simpl; [reflexivity|].
  rewrite is_space_lower. now destruct (is_space c).
Qed.

Lemma rstrip_lower (s : string) : rstrip (lower s) = lower (rstrip s).
Proof.
  induction s as [|c s IH]; simpl; [reflexivity|].
  rewrite IH, is_space_lower.
  destruct (rstrip s); simpl; [now destruct (is_space c) | reflexivity].
Qed.

Lemma strip_lower (s : string) : strip (lower s) = lower (strip s).
Proof. unfold strip. now rewrite lstrip_lower, rstrip_lower. Qed.

Lemma lstrip_pad (pad s : string) :
  all_chars is_space pad = true -> lstrip (pad ++ s) = lstrip s.
Proof.
  induction pad as [|c pad IH]; simpl; [reflexivity|].
  intros H. apply andb_true_iff in H as [-> H]. now apply IH.
Qed.

Lemma rstrip_spaces (pad : string) :
  all_chars is_space pad = true -> rstrip pad = EmptyString.
Proof.
  induction pad as [|c pad IH]; simpl; [reflexivity|].
  intros H. apply andb_true_iff in H as [-> H]. now rewrite IH.
Qed.

Lemma rstrip_pad (s pad : string) :
  all_chars is_space pad = true -> rstrip (s ++ pad) = rstrip s.
Proof.
  intros H. induction s as [|c s IH]; simpl.
  - now apply rstrip_spaces.
  - now rewrite IH.
Qed.

Lemma strip_pad_right (s pad : string) :
  all_chars is_space pad = true -> strip (s ++ pad) = strip s.
Proof.
  intros H. unfold strip. induction s as [|c s IH]; simpl.
  - now rewrite (lstrip_spaces _ H).
  - destruct (is_space c); [exact IH|].
    change (String c (s ++ pad)) with (String c s ++ pad).
    now apply rstrip_pad.
Qed.

Lemma strip_pad (pad1 s pad2 : string) :
  all_chars is_space pad1 = true -> all_chars is_space pad2 = true ->
  strip (pad1 ++ s ++ pad2) = strip s.
Proof.
  intros H1 H2. unfold strip at 1. rewrite (lstrip_pad _ _ H1).
  now apply strip_pad_right.
Qed.

(** The target is read the same in any letter case and with any white space
    around it. *)
Lemma target_normal (pad1 t1 pad2 t2 : string) :
  lower t1 = lower t2 ->
  all_chars is_space pad1 = true -> all_chars is_space pad2 = true ->
  lower (strip (pad1 ++ t1 ++ pad2)) = lower (strip t2).
Proof.
  intros Hl H1 H2. rewrite (strip_pad _ _ _ H1 H2).
  now rewrite <- !strip_lower, Hl.
Qed.

Lemma truthy_text_empty : truthy_text EmptyString = false.
Proof. reflexivity. Qed.

Lemma falsy_text_empty : falsy_text EmptyString = false.
Proof. reflexivity. Qed.

(** A phrase of the truthy pattern, wherever it stands. *)
Lemma truthy_phrase_at (w post : string) (prev : option ascii) :
  In w TRUTHY_PHRASES -> matches_at TRUTHY_RE (prev, w ++ post) = true.
Proof.
  intros H. simpl in H.
  repeat (destruct H as [<-|H]; [reflexivity|]). contradiction.
Qed.

Lemma truthy_phrase_found (w s : string) :
  In w TRUTHY_PHRASES -> contains w s = true -> truthy_text s = true.
Proof.
  intros Hw Hc. apply contains_iff in Hc as (pre & post & ->).
  unfold truthy_text. apply orb_true_iff. right.
  apply search_from_iff. exists pre, (w ++ post).
  split; [reflexivity | now apply truthy_phrase_at].
Qed.

Lemma member_iff (s : string) (toks : list string) :
  member s toks = true <-> In s toks.
Proof. apply existsb_eqb_In. Qed.

Section InterpreterMore.
Variable float_str : float -> string.

Lemma interpret_records_app (t : string) (a b : list record) :
  interpret_records float_str t (a ++ b)
  = match interpret_records float_str t a with
    | Return (Some r) => Return (Some r)
    | Return None => interpret_records float_str t b
    | Raise e => Raise e
    end.
Proof.
  induction a as [|rec a IH]; simpl; [reflexivity|].
  now destruct (interpret_record float_str t rec) as [[r|]|e].
Qed.

(** X6. Records are consulted in order and the first decision stands:
    over two lists of records put end to end, the interpreter answers what
    it answers over the first list, and what it answers over the second
    only when the first gives no decision; an exception raised over the
    first list goes up. *)
Theorem interpret_availability_app (a b : list record) (target_size : string) :
  _interpret_availability float_str (a ++ b) target_size
  = match _interpret_availability float_str a target_size with
    | Return (Some r) => Return (Some r)
    | Return None => _interpret_availability float_str b target_size
    | Raise e => Raise e
    end.
Proof. unfold _interpret_availability. apply interpret_records_app. Qed.

(** X7. Every decision has a justification that is not empty and that comes
    from a record matching the target: an in-stock verdict named
    [quantity=<q>] for a positive quantity-like value [q] of the record, or
    one of its availability-like values, truthy for in stock, falsy and not
    truthy for out of stock. *)
Theorem decision_justified (records : list record) (target_size : string)
    (ok : bool) (detail : string) :
  _interpret_availability float_str records target_size
  = Return (Some (ok, detail)) ->
  detail <> EmptyString
  /\ exists rec,
      In rec records
      /\ size_match float_str (lower (strip target_size)) rec = true
      /\ ((ok = true
           /\ exists q,
               In q (values_where QTY_FIELD_TOKENS (fields float_str rec))
               /\ positive_quantity q = Return true
               /\ detail = "quantity=" ++ q)
          \/ (In detail (values_where AVAIL_FIELD_TOKENS (fields float_str rec))
              /\ if ok then truthy_text (lower detail) = true
                 else truthy_text (lower detail) = false
                      /\ falsy_text (lower detail) = true)).
Proof.
  unfold _interpret_availability. intros H.
  apply interpret_records_inv in H as (rec & Hin & H).
  apply interpret_record_inv in H as (Hsize & [H|H]).
  - apply qty_signal_inv in H as (-> & q & Hq & Hpos & ->).
    split; [discriminate|]. exists rec. repeat split; auto.
    left. split; [reflexivity|]. eauto.
  - apply avail_signal_inv in H as (Hav & Hsig). split.
    + intros ->. destruct ok; simpl in Hsig.
      * rewrite truthy_text_empty in Hsig. discriminate.
      * destruct Hsig as [_ Hsig]. rewrite falsy_text_empty in Hsig.
        discriminate.
    + exists rec. repeat split; auto.
Qed.

(** X8. The target size is compared without regard to letter case or to
    white space around it, by the interpreter and by the text fallback
    alike. *)
Theorem target_case_and_padding (records : list record) (sp : soup)
    (pad1 t1 pad2 t2 : string) :
  lower t1 = lower t2 ->
  all_chars is_space pad1 = true -> all_chars is_space pad2 = true ->
  _interpret_availability float_str records (pad1 ++ t1 ++ pad2)
  = _interpret_availability float_str records t2
  /\ _fallback_text sp (pad1 ++ t1 ++ pad2) = _fallback_text sp t2.
Proof.
  intros Hl H1 H2. unfold _interpret_availability, _fallback_text.
  now rewrite (target_normal _ _ _ _ Hl H1 H2).
Qed.

(** X9. Truthy text is found by substring and before falsy text: in a
    matched record without a positive quantity, the first availability-like
    value that is truthy or falsy decides for in stock as soon as its
    lower-cased text is a truthy token or holds one of the phrases in stock,
    instock, available, ok, true anywhere, whatever else it says. *)
Theorem truthy_substring_in_stock (before after : list record) (rec : record)
    (target_size av : string) (pre post : list string) :
  let t := lower (strip target_size) in
  Forall (fun r => interpret_record float_str t r = Return None) before ->
  size_match float_str t rec = true ->
  qty_signal (values_where QTY_FIELD_TOKENS (fields float_str rec))
  = Return None ->
  values_where AVAIL_FIELD_TOKENS (fields float_str rec)
  = (pre ++ av :: post)%list ->
  Forall (fun a => truthy_text (lower a) = false
                   /\ falsy_text (lower a) = false) pre ->
  (In (lower av) TRUTHY
   \/ exists w, In w TRUTHY_PHRASES /\ contains w (lower av) = true) ->
  _interpret_availability float_str (before ++ rec :: after) target_size
  = Return (Some (true, av)).
Proof.
  intros t Hbefore Hsize Hqty Havs Hpre Hav.
  assert (truthy_text (lower av) = true) as Ht.
  { destruct Hav as [Hav|(w & Hw & Hc)].
    - unfold truthy_text. apply orb_true_iff. left. now apply member_iff.
    - now apply (truthy_phrase_found w). }
  unfold _interpret_availability. fold t.
  rewrite (interpret_records_skip _ _ _ _ _ Hbefore).
  rewrite (interpret_record_matched _ _ _ Hsize), Hqty, Havs.
  rewrite (avail_signal_skip _ _ _ Hpre). cbn [avail_signal bind].
  now rewrite Ht.
Qed.
End InterpreterMore.

Lemma decision_justified_witness :
  _interpret_availability float_str_const [rec_quantity_5] "M"
  = Return (Some (true, "quantity=5"))
  /\ "quantity=5" <> EmptyString.
Proof.
  split; [reflexivity|].
  apply (decision_justified float_str_const [rec_quantity_5] "M" true
           "quantity=5" eq_refl).
Defined.

Lemma target_case_and_padding_witness :
  _interpret_availability float_str_const [rec_status "xl" "Sold Out"]
                          (" " ++ "XL" ++ "  ")
  = _interpret_availability float_str_const [rec_status "xl" "Sold Out"] "xl".
Proof.
  apply (target_case_and_padding float_str_const
           [rec_status "xl" "Sold Out"] (plain_page EmptyString)
           " " "XL" "  " "xl"); reflexivity.
Defined.

(** A value that holds both a falsy phrase and [ok]. *)
Lemma truthy_substring_in_stock_witness :
  _interpret_availability float_str_const
    [rec_status "M" "Sold out - Booked"] "M"
  = Return (Some (true, "Sold out - Booked")).
Proof.
  apply (truthy_substring_in_stock float_str_const [] []
           (rec_status "M" "Sold out - Booked") "M" "Sold out - Booked" [] []).
  - constructor.
  - reflexivity.
  - reflexivity.
  - reflexivity.
  - constructor.
  - right. exists "ok". split; [simpl; tauto | reflexivity].
Defined.

Section InterpreterFields.
Variable float_str : float -> string.

Lemma fields_fold_plain (rec : record) (acc : dict string) :
  fold_left
    (fun acc kv => let '(k, v) := kv in
                   if is_plain v then dict_set acc (lower k) (strip (str float_str v))
                   else acc)
    (plain_entries rec) acc
  = fold_left
      (fun acc kv => let '(k, v) := kv in
                     if is_plain v then dict_set acc (lower k) (strip (str float_str v))
                     else acc)
      rec acc.
Proof.
  revert acc. unfold plain_entries.
  induction rec as [|[k v] rec IH]; intros acc; simpl; [reflexivity|].
  destruct (is_plain v) eqn:E; simpl; [rewrite E|]; apply IH.
Qed.

Lemma fields_plain (rec : record) :
  fields float_str (plain_entries rec) = fields float_str rec.
Proof. apply fields_fold_plain. Qed.

Lemma interpret_record_plain (t : string) (rec : record) :
  interpret_record float_str t (plain_entries rec)
  = interpret_record float_str t rec.
Proof. unfold interpret_record, size_match. now rewrite fields_plain. Qed.

(** X10. Entries whose value is null count for nothing: the interpreter
    answers the same over the records with their null entries removed. *)
Theorem null_entries_ignored (records : list record) (target_size : string) :
  _interpret_availability float_str (map plain_entries records) target_size
  = _interpret_availability float_str records target_size.
Proof.
  unfold _interpret_availability.
  induction records as [|rec records IH]; simpl; [reflexivity|].
  now rewrite interpret_record_plain, IH.
Qed.

Lemma fields_keys_from (rec : record) (acc : dict string) (k : string) :
  In k (keys (fold_left
                (fun acc kv => let '(k, v) := kv in
                               if is_plain v
                               then dict_set acc (lower k) (strip (str float_str v))
                               else acc)
                rec acc)) ->
  In k (keys acc)
  \/ exists k0 v, In (k0, v) rec /\ is_plain v = true /\ k = lower k0.
Proof.
  revert acc. induction rec as [|[k0 v] rec IH]; intros acc H; simpl in H;
    [auto|].
  destruct (IH _ H) as [H'|(k1 & v1 & Hin & Hv & E)].
  - destruct (is_plain v) eqn:Hv; [|auto].
    rewrite keys_dict_set in H'.
    destruct (existsb (String.eqb (lower k0)) (keys acc)); [auto|].
    apply in_app_or in H' as [H'|[<-|[]]]; [auto|].
    right. exists k0, v. simpl. auto.
  - right. exists k1, v1. simpl. auto.
Qed.

Lemma filter_none {A : Type} (f : A -> bool) (l : list A) :
  (forall x, In x l -> f x = false) -> filter f l = [].
Proof.
  induction l as [|x l IH]; intros H; simpl; [reflexivity|].
  rewrite (H x (or_introl eq_refl)). apply IH. intros y Hy. apply H. now right.
Qed.

(** X11. Records without a size-like key are never interpreted: when no
    path of any record holds size, label, variant or name, the interpreter
    gives no decision for any target, whatever quantities and availability
    values the records have. *)
Theorem no_size_key_no_decision (records : list record)
    (target_size : string) :
  (forall rec k v, In rec records -> In (k, v) rec ->
                   any_in SIZE_FIELD_TOKENS (lower k) = false) ->
  _interpret_availability float_str records target_size = Return None.
Proof.
  intros Hkeys. unfold _interpret_availability.
  induction records as [|rec records IH]; simpl; [reflexivity|].
  assert (size_match float_str (lower (strip target_size)) rec = false) as E.
  { unfold size_match, values_where. rewrite filter_none; [reflexivity|].
    intros [k s] Hin. simpl.
    assert (In k (keys (fields float_str rec))) as Hk
        by (apply (in_map fst) in Hin; exact Hin).
    unfold fields in Hk.
    apply fields_keys_from in Hk as [[]|(k0 & v & Hk & _ & ->)].
    apply (Hkeys rec k0 v); [now left | exact Hk]. }
  unfold interpret_record. rewrite E. simpl. apply IH.
  intros rec' k v Hrec. apply Hkeys. now right.
Qed.
End InterpreterFields.

Lemma no_size_key_no_decision_witness :
  _interpret_availability float_str_const [rec_no_size] EmptyString
  = Return None.
Proof.
  apply (no_size_key_no_decision float_str_const [rec_no_size] EmptyString).
  intros rec k v [<-|[]] Hin. simpl in Hin.
  repeat (destruct Hin as [[= <- <-]|Hin]; [reflexivity|]). contradiction.
Defined.

(* ===================================================================== *)
(** ** More on the text fallback *)
(* ===================================================================== *)

(** A pattern that matches a phrase wherever it stands finds it in every
    text that holds it. *)
Lemma search_phrase (r : regex) (w s : string) :
  (forall prev post, matches_at r (prev, w ++ post) = true) ->
  contains w s = true -> search r s = true.
Proof.
  intros Hr Hc. apply contains_iff in Hc as (pre & post & ->).
  apply search_from_iff. exists pre, (w ++ post). split; [reflexivity|].
  apply Hr.
Qed.

Lemma add_phrases_found (w s : string) :
  In w ADD_CUES -> contains w s = true -> search ADD_PHRASES s = true.
Proof.
  intros Hw. apply search_phrase. intros prev post. simpl in Hw.
  repeat (destruct Hw as [<-|Hw]; [reflexivity|]). contradiction.
Qed.

Lemma out_phrases_found (w s : string) :
  In w OUT_CUES -> contains w s = true -> search OUT_PHRASES s = true.
Proof.
  intros Hw. apply search_phrase. intros prev post. simpl in Hw.
  repeat (destruct Hw as [<-|Hw]; [reflexivity|]). contradiction.
Qed.

Lemma search_needs (r : regex) (ws : list string) (text : string) :
  required r = Some ws -> (forall w, In w ws -> lower w = w) ->
  search r (lower text) = true ->
  exists w, In w ws /\ contains w (lower text) = true.
Proof.
  intros Hws Hlow H.
  destruct (search_required _ _ _ Hws H) as (w & Hin & Hc).
  rewrite lower_idem, (Hlow w Hin) in Hc. eauto.
Qed.

Ltac lower_phrases :=
  let w := fresh "w" in
  let H := fresh "H" in
  intros w H; simpl in H;
  repeat (destruct H as [<-|H]; [reflexivity|]);
  contradiction.

(** X12. Whatever the text fallback decides is one of its four answers, and
    the page says so: an out-of-stock answer needs one of the phrases out of
    stock, sold out, unavailable somewhere in the lower-cased text, an
    in-stock answer one of add to bag, add to cart, in stock, available. *)
Theorem fallback_decision_grounded (sp : soup) (target_size : string)
    (ok : bool) (detail : string) :
  _fallback_text sp target_size = Some (ok, detail) ->
  In (ok, detail)
     [(false, "text: out of stock"); (true, "text: likely in stock");
      (true, "text: add to bag found"); (false, "text: global out of stock")]
  /\ exists w,
      In w (if ok then IN_CUES else OUT_CUES)
      /\ contains w (lower (page_text sp)) = true.
Proof.
  unfold _fallback_text.
  destruct (search (size_then_out _) _) eqn:E1.
  { intros [= <- <-]. split; [simpl; auto|].
    apply (search_needs (size_then_out _) OUT_CUES _ eq_refl) in E1;
      [exact E1|lower_phrases]. }
  destruct (search (size_then_in _) _) eqn:E2.
  { intros [= <- <-]. split; [simpl; auto|].
    apply (search_needs (size_then_in _) IN_CUES _ eq_refl) in E2;
      [exact E2|lower_phrases]. }
  destruct (search ADD_PHRASES _) eqn:E3.
  { intros [= <- <-]. split; [simpl; auto|].
    apply (search_needs ADD_PHRASES ADD_CUES _ eq_refl) in E3;
      [|lower_phrases].
    destruct E3 as (w & Hw & Hc). exists w. split; [|exact Hc].
    simpl in *. tauto. }
  destruct (search OUT_PHRASES _) eqn:E4; [|discriminate].
  intros [= <- <-]. split; [simpl; auto 6|].
  apply (search_needs OUT_PHRASES OUT_CUES _ eq_refl) in E4;
    [exact E4|lower_phrases].
Qed.

(** X13. A generic cue anywhere on the page always gets an answer from the
    text fallback, and an add-to-bag or add-to-cart cue outranks a sold-out
    notice elsewhere on the page: with one present the answer is never the
    global out-of-stock one. *)
Theorem fallback_generic_cues (sp : soup) (target_size w : string) :
  In w GENERIC_CUES -> contains w (lower (page_text sp)) = true ->
  _fallback_text sp target_size <> None
  /\ (In w ADD_CUES ->
      In (_fallback_text sp target_size)
         [Some (false, "text: out of stock");
          Some (true, "text: likely in stock");
          Some (true, "text: add to bag found")]).
Proof.
  intros Hw Hc. unfold _fallback_text.
  destruct (search (size_then_out _) _); [split; [discriminate | simpl; auto]|].
  destruct (search (size_then_in _) _); [split; [discriminate | simpl; auto]|].
  assert (In w ADD_CUES \/ In w OUT_CUES) as [Ha|Ho] by (simpl in *; tauto).
  - rewrite (add_phrases_found _ _ Ha Hc). split; [discriminate | simpl; auto].
  - destruct (search ADD_PHRASES _); [split; [discriminate | simpl; auto]|].
    rewrite (out_phrases_found _ _ Ho Hc). split; [discriminate|].
    intros Ha. exfalso. simpl in Ha, Ho.
    destruct Ha as [<-|[<-|[]]];
      repeat (destruct Ho as [Ho|Ho]; [discriminate Ho|]); contradiction.
Qed.

Lemma fallback_decision_grounded_witness :
  exists w, In w OUT_CUES
            /\ contains w (lower (page_text (plain_page "Size Large Sold Out")))
               = true.
Proof.
  apply (fallback_decision_grounded (plain_page "Size Large Sold Out") "Large"
           false "text: out of stock" eq_refl).
Defined.

Lemma fallback_generic_cues_witness :
  _fallback_text (plain_page "Sold out online. Add to Bag in store") "XL"
  <> None.
Proof.
  apply (fallback_generic_cues
           (plain_page "Sold out online. Add to Bag in store") "XL"
           "add to bag").
  - simpl. tauto.
  - reflexivity.
Defined.

(* ===================================================================== *)
(** ** More on the structured-block extractor *)
(* ===================================================================== *)

Lemma bb_open (x : string) :
  brace_balance (String "{" x) = (1 + brace_balance x)%Z.
Proof. reflexivity. Qed.

Lemma bb_close (x : string) :
  brace_balance (String "}" x) = (-1 + brace_balance x)%Z.
Proof. reflexivity. Qed.

Lemma close_brace_spec (s : string) :
  forall depth body rest,
    close_brace depth s = Some (body, rest) ->
    s = body ++ rest
    /\ (exists inner, body = inner ++ "}")
    /\ brace_balance body = (- Z.of_nat depth - 1)%Z
    /\ (forall p q, body = p ++ q -> q <> EmptyString ->
                    (0 <= brace_balance p + Z.of_nat depth)%Z).
Proof.
  induction s as [|c s IH]; intros depth body rest H; cbn [close_brace] in H;
    [discriminate|].
  destruct (Ascii.eqb_spec c "{") as [->|Hopen].
  - destruct (close_brace (S depth) s) as [[body' rest']|] eqn:E;
      [|discriminate].
    injection H as <- <-.
    destruct (IH _ _ _ E) as (-> & (inner & ->) & Hbal & Hpre).
    repeat split.
    + now exists (String "{" inner).
    + rewrite ?bb_open, ?bb_close in *; lia.
    + intros [|a p] q Hpq Hq; [simpl; lia|].
      simpl in Hpq. injection Hpq as <- Hpq.
      specialize (Hpre _ _ Hpq Hq). rewrite ?bb_open, ?bb_close in *; lia.
  - destruct (Ascii.eqb_spec c "}") as [->|Hclose].
    + destruct depth as [|depth].
      * injection H as <- <-. repeat split.
        -- now exists EmptyString.
        -- intros [|a p] q Hpq Hq; [simpl; lia|].
           simpl in Hpq. injection Hpq as _ Hpq.
           destruct p; simpl in Hpq; [now subst q | discriminate].
      * destruct (close_brace depth s) as [[body' rest']|] eqn:E;
          [|discriminate].
        injection H as <- <-.
        destruct (IH _ _ _ E) as (-> & (inner & ->) & Hbal & Hpre).
        repeat split.
        -- now exists (String "}" inner).
        -- rewrite ?bb_open, ?bb_close in *; lia.
        -- intros [|a p] q Hpq Hq; [simpl; lia|].
           simpl in Hpq. injection Hpq as <- Hpq.
           specialize (Hpre _ _ Hpq Hq). rewrite ?bb_open, ?bb_close in *; lia.
    + destruct (close_brace depth s) as [[body' rest']|] eqn:E;
        [|discriminate].
      injection H as <- <-.
      destruct (IH _ _ _ E) as (-> & (inner & ->) & Hbal & Hpre).
      assert (forall x, brace_balance (String c x) = brace_balance x) as Hc.
      { intros x. cbn [brace_balance].
        destruct (Ascii.eqb_spec c "{"); [contradiction|].
        destruct (Ascii.eqb_spec c "}"); [contradiction|]. lia. }
      repeat split.
      * now exists (String c inner).
      * now rewrite Hc.
      * intros [|a p] q Hpq Hq; [simpl; lia|].
        simpl in Hpq. injection Hpq as <- Hpq.
        rewrite Hc. now apply (Hpre _ _ Hpq Hq).
Qed.

Lemma balanced_from_inv (fuel : nat) :
  forall s r,
    In r (balanced_from fuel s) ->
    exists pre body rest,
      s = pre ++ String "{" body ++ rest /\ r = String "{" body
      /\ close_brace 0 (body ++ rest) = Some (body, rest).
Proof.
  induction fuel as [|fuel IH]; intros s r H; simpl in H; [contradiction|].
  destruct s as [|c s]; [contradiction|].
  assert (In r (balanced_from fuel s) ->
          exists pre body rest,
            String c s = pre ++ String "{" body ++ rest /\ r = String "{" body
            /\ close_brace 0 (body ++ rest) = Some (body, rest)) as Hskip.
  { intros H'. destruct (IH _ _ H') as (pre & body & rest & -> & -> & E).
    now exists (String c pre), body, rest. }
  destruct (Ascii.eqb_spec c "{") as [->|_]; [|now apply Hskip].
  destruct (close_brace 0 s) as [[body rest]|] eqn:E; [|now apply Hskip].
  destruct (close_brace_spec _ _ _ _ E) as (Hs & _).
  destruct H as [<-|H].
  - exists EmptyString, body, rest. simpl. rewrite <- Hs. auto.
  - destruct (IH _ _ H) as (pre & body' & rest' & -> & -> & E').
    exists (String "{" body ++ pre), body', rest'. simpl.
    rewrite Hs, !app_assoc_s. auto.
Qed.

(** X14. Every region that the brace pattern finds in a script is a piece
    of the script that opens with a brace and closes with the brace that
    matches it: its braces balance, and no shorter beginning of it is
    balanced already. *)
Theorem finditer_regions_balanced (txt r : string) :
  In r (finditer_json txt) ->
  contains r txt = true
  /\ (exists inner, r = String "{" (inner ++ "}"))
  /\ brace_balance r = 0%Z
  /\ (forall p q, r = p ++ q -> p <> EmptyString -> q <> EmptyString ->
                  (0 < brace_balance p)%Z).
Proof.
  unfold finditer_json. intros H.
  apply balanced_from_inv in H as (pre & body & rest & -> & -> & E).
  destruct (close_brace_spec _ _ _ _ E) as (_ & (inner & ->) & Hbal & Hpre).
  repeat split.
  - apply contains_iff. now exists pre, rest.
  - now exists inner.
  - rewrite ?bb_open, ?bb_close in *; simpl Z.of_nat in *; lia.
  - intros [|a p] q Hpq Hp Hq; [congruence|].
    simpl in Hpq. injection Hpq as <- Hpq.
    specialize (Hpre _ _ Hpq Hq). rewrite ?bb_open, ?bb_close in *; lia.
Qed.

Lemma balanced_from_enough (f1 : nat) :
  forall f2 s,
    String.length s <= f1 -> String.length s <= f2 ->
    balanced_from f1 s = balanced_from f2 s.
Proof.
  induction f1 as [|f1 IH]; intros f2 s H1 H2.
  - destruct s; [|simpl in H1; lia]. now destruct f2.
  - destruct f2 as [|f2]; [destruct s; [reflexivity | simpl in H2; lia]|].
    destruct s as [|c s]; [reflexivity|]. simpl in H1, H2.
    cbn [balanced_from].
    destruct (c =? "{")%char; [|apply IH; lia].
    destruct (close_brace 0 s) as [[body rest]|] eqn:E; [|apply IH; lia].
    destruct (close_brace_spec _ _ _ _ E) as (Hs & _).
    apply (f_equal String.length) in Hs. rewrite length_app_s in Hs.
    f_equal. apply IH; lia.
Qed.

Lemma balanced_from_total (fuel : nat) :
  forall s,
    list_sum (map String.length (balanced_from fuel s)) <= String.length s.
Proof.
  induction fuel as [|fuel IH]; intros s; simpl; [lia|].
  destruct s as [|c s]; simpl; [lia|].
  destruct (c =? "{")%char; [|specialize (IH s); lia].
  destruct (close_brace 0 s) as [[body rest]|] eqn:E; [|specialize (IH s); lia].
  destruct (close_brace_spec _ _ _ _ E) as (Hs & _).
  apply (f_equal String.length) in Hs. rewrite length_app_s in Hs.
  simpl. specialize (IH rest). lia.
Qed.

(** X15. The scan for brace regions ends within as many steps as the script
    has characters, more fuel changes nothing, and the regions do not
    overlap: their lengths add up to no more than the length of the
    script. *)
Theorem finditer_enough_fuel (txt : string) (fuel : nat) :
  String.length txt <= fuel ->
  balanced_from fuel txt = finditer_json txt
  /\ list_sum (map String.length (finditer_json txt)) <= String.length txt.
Proof.
  intros H. split.
  - unfold finditer_json. apply balanced_from_enough; [exact H | lia].
  - apply balanced_from_total.
Qed.

Lemma finditer_enough_fuel_witness :
  balanced_from 100 "var a = {'x': {'y': 1}}; f({)"
  = ["{'x': {'y': 1}}"].
Proof.
  destruct (finditer_enough_fuel "var a = {'x': {'y': 1}}; f({)" 100) as [E _].
  - simpl. lia.
  - rewrite E. reflexivity.
Defined.

Lemma finditer_regions_balanced_witness :
  brace_balance "{'x': {'y': 1}}" = 0%Z.
Proof.
  apply (finditer_regions_balanced "var a = {'x': {'y': 1}}; f({)"
           "{'x': {'y': 1}}").
  vm_compute. now left.
Defined.

Section ExtractorMore.
Variable json_loads : string -> option json.
Variable _HAS_REGEX : bool.

Lemma ld_blocks_dicts (data : json) :
  Forall (fun b => is_dict b = true) (ld_blocks data).
Proof.
  destruct data as [v|l|items]; simpl.
  - constructor.
  - apply Forall_forall. intros b Hb. now apply filter_In in Hb.
  - repeat constructor.
Qed.

(** X16. Whatever the JSON-LD scripts hold, the extractor returns mappings
    only, each one what a script decodes to or a member of the sequence it
    decodes to: scalars, and members of a sequence that are not mappings,
    are left behind. *)
Theorem ld_blocks_are_mappings (sp : soup) (b : json) :
  In b (_json_blocks_from_ld json_loads sp) ->
  is_dict b = true
  /\ exists txt data,
      In txt (ld_json_scripts sp) /\ json_loads txt = Some data
      /\ (data = b \/ exists l, data = JList l /\ In b l).
Proof.
  rewrite json_blocks_from_ld_flat_map. intros H.
  apply in_flat_map in H as (txt & Htxt & H).
  unfold script_blocks in H.
  destruct (json_loads txt) as [data|] eqn:E; [|contradiction].
  split.
  - pose proof (ld_blocks_dicts data) as HF. rewrite Forall_forall in HF. auto.
  - exists txt, data. repeat split; auto.
    destruct data as [v|l|items]; simpl in H.
    + contradiction.
    + right. exists l. apply filter_In in H. tauto.
    + left. destruct H as [<-|[]]. reflexivity.
Qed.

Lemma inline_chunk_inv (blocks : list json) (js : string) (b : json) :
  In b (inline_chunk json_loads blocks js) ->
  In b blocks
  \/ (search KEYWORDS js = true
      /\ (json_loads js = Some b
          \/ (json_loads js = None
              /\ json_loads (coerce_quotes js) = Some b))).
Proof.
  unfold inline_chunk.
  destruct (search KEYWORDS js); simpl; [|auto].
  destruct (json_loads js) as [data|] eqn:E.
  - intros H. apply in_app_or in H as [H|[<-|[]]]; auto.
  - destruct (json_loads (coerce_quotes js)) as [data|] eqn:E'; [|auto].
    intros H. apply in_app_or in H as [H|[<-|[]]]; auto.
Qed.

Lemma inline_chunks_inv (regions : list string) (blocks : list json)
    (b : json) :
  In b (fold_left (inline_chunk json_loads) regions blocks) ->
  In b blocks
  \/ exists js,
      In js regions /\ search KEYWORDS js = true
      /\ (json_loads js = Some b
          \/ (json_loads js = None
              /\ json_loads (coerce_quotes js) = Some b)).
Proof.
  revert blocks. induction regions as [|js regions IH]; intros blocks H;
    cbn [fold_left] in H; [auto|].
  destruct (IH _ H) as [H'|(js' & Hin & Hrest)].
  - apply inline_chunk_inv in H' as [H'|H']; [auto|].
    right. exists js. simpl. auto.
  - right. exists js'. simpl. auto.
Qed.

(** X17. Without the [regex] package the inline scan returns nothing. With
    it, every block it returns was decoded from a brace region of a script,
    the script and the region both naming one of the keywords, by the strict
    decoder, or after it failed by the decoder on the region with every
    single quote turned into a double quote. *)
Theorem inline_blocks_provenance (sp : soup) :
  (_HAS_REGEX = false ->
   _json_blocks_from_inline_scripts json_loads _HAS_REGEX sp = [])
  /\ forall b,
      In b (_json_blocks_from_inline_scripts json_loads _HAS_REGEX sp) ->
      exists txt js,
        In txt (scripts sp) /\ In js (finditer_json txt)
        /\ search KEYWORDS txt = true /\ search KEYWORDS js = true
        /\ contains "{" txt = true
        /\ (json_loads js = Some b
            \/ (json_loads js = None
                /\ json_loads (coerce_quotes js) = Some b)).
Proof.
  unfold _json_blocks_from_inline_scripts. split; [now intros ->|].
  destruct _HAS_REGEX; simpl; [|contradiction].
  intros b.
  assert (forall l acc,
             In b (fold_left
                     (fun blocks txt =>
                        if negb (nonempty txt) || negb (contains "{" txt)
                        then blocks
                        else if negb (search KEYWORDS txt) then blocks
                        else fold_left (inline_chunk json_loads)
                                       (finditer_json txt) blocks) l acc) ->
             In b acc
             \/ exists txt js,
                 In txt l /\ In js (finditer_json txt)
                 /\ search KEYWORDS txt = true /\ search KEYWORDS js = true
                 /\ contains "{" txt = true
                 /\ (json_loads js = Some b
                     \/ (json_loads js = None
                         /\ json_loads (coerce_quotes js) = Some b))) as Hgen.
  { induction l as [|txt l IH]; intros acc H; cbn [fold_left] in H; [auto|].
    destruct (IH _ H) as [H'|(txt' & js & Hin & Hrest)].
    - destruct (nonempty txt); simpl in H'; [|auto].
      destruct (contains "{" txt) eqn:Hb; simpl in H'; [|auto].
      destruct (search KEYWORDS txt) eqn:Hk; simpl in H'; [|auto].
      apply inline_chunks_inv in H' as [H'|(js & Hjs & Hkj & Hdec)]; [auto|].
      right. exists txt, js. simpl. auto 10.
    - right. exists txt', js. simpl. tauto. }
  intros H. destruct (Hgen _ _ H) as [[]|H']. exact H'.
Qed.
End ExtractorMore.

Lemma ld_blocks_are_mappings_witness :
  is_dict (JDict []) = true.
Proof.
  apply (ld_blocks_are_mappings json_loads_two
           {| ld_json_scripts := ["7"; "[{}]"]; scripts := [];
              page_text := EmptyString |} (JDict [])).
  vm_compute. now left.
Defined.

(* ===================================================================== *)
(** ** More on the orchestrator, the fetch and the command line *)
(* ===================================================================== *)



Section OrchestratorMore.
Variable float_str : float -> string.
Variable json_loads : string -> option json.
Variable _HAS_REGEX : bool.
Variable BeautifulSoup : string -> soup.


(** X22. A quantity of more than 4300 digits stops the interpreter: in the
    first record that matches the target and is not passed over, when the
    quantities before it are [0] or not made of digits, [int] raises
    [ValueError] on it, and no later value or record is looked at. *)
Theorem long_quantity_raises (before after : list record) (rec : record)
    (target_size q : string) (pre post : list string) :
  let t := lower (strip target_size) in
  Forall (fun r => interpret_record float_str t r = Return None) before ->
  size_match float_str t rec = true ->
  values_where QTY_FIELD_TOKENS (fields float_str rec)
  = (pre ++ q :: post)%list ->
  Forall (fun a => a = "0" \/ isdigit a = false) pre ->
  isdigit q = true ->
  (INT_MAX_STR_DIGITS < Z.of_nat (String.length q))%Z ->
  _interpret_availability float_str (before ++ rec :: after) target_size
  = Raise ValueError.
Proof.
  intros t Hbefore Hsize Hqs Hpre Hd Hlen.
  unfold _interpret_availability. fold t.
  rewrite (interpret_records_skip _ _ _ _ _ Hbefore).
  rewrite (interpret_record_matched _ _ _ Hsize), Hqs.
  rewrite (qty_signal_raise pre post q ValueError); [reflexivity| |].
  - eapply Forall_impl; [|exact Hpre]. intros a [->|Ha].
    + apply positive_quantity_zero.
    + now apply positive_quantity_nondigit.
  - apply positive_quantity_raise. auto.
Qed.

Variable http_get : string -> http_result.

(** X19. A request that raises, a response with a status from 400 to 599
    and a response with an empty text are all one to the program: the fetch
    returns the empty text, [check_once] returns no verdict with the detail
    [fetch failed] without looking at the page, and [main] prints the
    could-not-determine message, in quiet mode too, and sends it to the
    webhook when one is set. *)
Theorem fetch_failure_reported (args : Args) :
  (http_get (url args) = HttpRaised
   \/ exists status text,
       http_get (url args) = HttpResponse status text
       /\ ((400 <= status < 600)%Z \/ text = EmptyString)) ->
  fetch http_get (url args) = EmptyString
  /\ check_once float_str json_loads _HAS_REGEX (fetch http_get) BeautifulSoup
                (url args) (size args)
     = Return (None, "fetch failed")
  /\ main float_str json_loads _HAS_REGEX http_get BeautifulSoup args
     = Return ((Print (msg_unknown args "fetch failed")
                :: match webhook args with
                   | Some w => notify w (msg_unknown args "fetch failed")
                   | None => []
                   end)%list, 0%Z).
Proof.
  intros H.
  assert (fetch http_get (url args) = EmptyString) as Hf.
  { unfold fetch. destruct H as [->|(status & text & -> & [Hs| ->])].
    - reflexivity.
    - unfold raises_for_status.
      destruct (Z.leb_spec 400 status); [|lia].
      destruct (Z.ltb_spec status 600); [reflexivity | lia].
    - now destruct (raises_for_status status). }
  assert (check_once float_str json_loads _HAS_REGEX (fetch http_get)
                     BeautifulSoup (url args) (size args)
          = Return (None, "fetch failed")) as Hc
      by (unfold check_once; now rewrite Hf).
  repeat split; auto.
  unfold main. rewrite Hc. cbn [bind worth_telling].
  rewrite !orb_true_r. cbn [app]. f_equal. f_equal.
  destruct (webhook args) as [w|]; [|reflexivity].
  rewrite andb_true_r. unfold notify. now destruct (nonempty w).
Qed.

(** X20. [main] never notifies behind the user's back, and never about an
    out-of-stock finding unless asked to always notify: when a request goes
    to the webhook, the webhook is the non-empty one given on the command
    line, the same message was printed just before, the request carries it
    as [content] and as [text], nothing else happens, and the exit code
    is 0. *)
Theorem main_notification_printed (args : Args) (w : string)
    (payload : dict string) (effects : list effect) (code : Z) :
  main float_str json_loads _HAS_REGEX http_get BeautifulSoup args
  = Return (effects, code) ->
  In (Post w payload) effects ->
  exists msg,
    effects = [Print msg; Post w payload] /\ code = 0%Z
    /\ webhook args = Some w /\ w <> EmptyString
    /\ payload = [("content", msg); ("text", msg);
                  ("username", "GAP Stock Monitor")]
    /\ exists ok detail,
        check_once float_str json_loads _HAS_REGEX (fetch http_get)
                   BeautifulSoup (url args) (size args)
        = Return (ok, detail)
        /\ (always_notify args = true \/ ok <> Some false).
Proof.
  unfold main.
  destruct (check_once _ _ _ _ _ _ _) as [[ok detail]|e]; cbn [bind];
    [|discriminate].
  set (msg := match ok with
              | Some true => msg_in_stock args detail
              | Some false => msg_out_of_stock args detail
              | None => msg_unknown args detail
              end).
  intros [= <- <-] H. exists msg.
  destruct (webhook args) as [w'|] eqn:Hw.
  - destruct (nonempty w') eqn:Hne; cbn [andb] in *.
    + destruct (always_notify args || worth_telling ok) eqn:Hsend.
      * assert (always_notify args || negb (quiet args) || worth_telling ok
                = true) as Hprint.
        { apply orb_true_iff in Hsend as [-> | ->];
            [reflexivity | apply orb_true_r]. }
        rewrite Hprint in *. unfold notify in *. rewrite Hne in *.
        cbn [negb app] in *.
        destruct H as [H|[H|[]]]; [discriminate|]. injection H as <- <-.
        repeat split; auto.
        -- intros ->. discriminate.
        -- exists ok, detail. split; [reflexivity|].
           apply orb_true_iff in Hsend as [Ha|Ht]; [now left|].
           right. intros ->. discriminate.
      * rewrite app_nil_r in H.
        destruct (always_notify args || negb (quiet args) || worth_telling ok);
          [destruct H as [H|[]]; discriminate | contradiction].
    + rewrite app_nil_r in H.
      destruct (always_notify args || negb (quiet args) || worth_telling ok);
        [destruct H as [H|[]]; discriminate | contradiction].
  - rewrite app_nil_r in H.
    destruct (always_notify args || negb (quiet args) || worth_telling ok);
      [destruct H as [H|[]]; discriminate | contradiction].
Qed.

(** X23. An exception of the interpreter is caught nowhere: it goes up
    through [check_once] and through [main], which then prints nothing,
    sends nothing and does not return its exit code 0. *)
Theorem exception_reaches_main (args : Args) (e : exn) :
  let sp := BeautifulSoup (fetch http_get (url args)) in
  fetch http_get (url args) <> EmptyString ->
  structured_path float_str json_loads _HAS_REGEX sp (size args) = Raise e ->
  check_once float_str json_loads _HAS_REGEX (fetch http_get) BeautifulSoup
             (url args) (size args)
  = Raise e
  /\ main float_str json_loads _HAS_REGEX http_get BeautifulSoup args
     = Raise e.
Proof.
  intros sp Hf Hs.
  assert (check_once float_str json_loads _HAS_REGEX (fetch http_get)
                     BeautifulSoup (url args) (size args)
          = Raise e) as Hc.
  { unfold check_once. fold sp.
    destruct (fetch http_get (url args)); [now elim Hf|].
    cbn [nonempty negb]. now rewrite Hs. }
  split; [exact Hc|]. unfold main. now rewrite Hc.
Qed.
End OrchestratorMore.


Lemma long_quantity_raises_witness :
  _interpret_availability float_str_const [rec_long_quantity] "M"
  = Raise ValueError.
Proof.
  apply (long_quantity_raises float_str_const [] [] rec_long_quantity "M"
           (ones 4301) [] []).
  - constructor.
  - vm_compute. reflexivity.
  - vm_compute. reflexivity.
  - constructor.
  - vm_compute. reflexivity.
  - vm_compute. reflexivity.
Defined.

Lemma fetch_failure_reported_witness :
  main float_str_const json_loads_two true http_not_found soup_const args_quiet
  = Return ([Print (msg_unknown args_quiet "fetch failed");
             Post "https://hooks.example/x"
                  [("content", msg_unknown args_quiet "fetch failed");
                   ("text", msg_unknown args_quiet "fetch failed");
                   ("username", "GAP Stock Monitor")]], 0%Z).
Proof.
  apply (fetch_failure_reported float_str_const json_loads_two true soup_const
           http_not_found args_quiet).
  right. exists 404%Z, "<html>Not Found</html>".
  split; [reflexivity | left; lia].
Defined.

Lemma main_notification_printed_witness :
  exists msg,
    [Print (msg_unknown args_quiet "fetch failed");
     Post "https://hooks.example/x"
          [("content", msg_unknown args_quiet "fetch failed");
           ("text", msg_unknown args_quiet "fetch failed");
           ("username", "GAP Stock Monitor")]]
    = [Print msg;
       Post "https://hooks.example/x"
            [("content", msg_unknown args_quiet "fetch failed");
             ("text", msg_unknown args_quiet "fetch failed");
             ("username", "GAP Stock Monitor")]].
Proof.
  destruct (main_notification_printed float_str_const json_loads_two true
              soup_const http_down args_quiet "https://hooks.example/x"
              [("content", msg_unknown args_quiet "fetch failed");
               ("text", msg_unknown args_quiet "fetch failed");
               ("username", "GAP Stock Monitor")]
              [Print (msg_unknown args_quiet "fetch failed");
               Post "https://hooks.example/x"
                    [("content", msg_unknown args_quiet "fetch failed");
                     ("text", msg_unknown args_quiet "fetch failed");
                     ("username", "GAP Stock Monitor")]]
              0%Z) as (msg & E & _).
  - reflexivity.
  - right. left. reflexivity.
  - exists msg. exact E.
Defined.

Lemma exception_reaches_main_witness :
  main float_str_const json_loads_long true http_page soup_long args_quiet
  = Raise ValueError.
Proof.
  apply (exception_reaches_main float_str_const json_loads_long true soup_long
           http_page args_quiet ValueError).
  - discriminate.
  - vm_compute. reflexivity.
Defined.

(* ===================================================================== *)
(** ** Keys that differ in case only *)
(* ===================================================================== *)

Section FieldsLookup.
Variable float_str : float -> string.

Lemma fields_fold_lookup (rec : record) (acc : dict string) (k : string) :
  dict_get
    (fold_left
       (fun acc kv => let '(k, v) := kv in
                      if is_plain v
                      then dict_set acc (lower k) (strip (str float_str v))
                      else acc)
       rec acc) k
  = match dict_get (rev (map (field_of float_str) (plain_entries rec))) k with
    | Some x => Some x
    | None => dict_get acc k
    end.
Proof.
  revert acc. unfold plain_entries.
  induction rec as [|[k0 v] rec IH]; intros acc; simpl; [reflexivity|].
  rewrite IH. destruct (is_plain v); simpl; [|reflexivity].
  rewrite dict_get_app, dict_get_set. simpl.
  destruct (dict_get (rev _) k); [reflexivity|].
  now destruct (String.eqb (lower k0) k).
Qed.

Lemma fields_fold_ok (rec : record) (acc : dict string) :
  dict_ok acc ->
  dict_ok (fold_left
             (fun acc kv => let '(k, v) := kv in
                            if is_plain v
                            then dict_set acc (lower k) (strip (str float_str v))
                            else acc)
             rec acc).
Proof.
  revert acc. induction rec as [|[k0 v] rec IH]; intros acc H; simpl;
    [exact H|].
  apply IH. destruct (is_plain v); [now apply dict_set_ok | exact H].
Qed.

(** X21. The interpreter reads the keys of a record lower-cased, each
    once: under a lower-cased key it finds the trimmed text of the last
    entry, null entries apart, whose key is that key in some letter case. So
    of two entries whose keys differ in case only, the later one counts. *)
Theorem fields_last_value (rec : record) (k : string) :
  dict_get (fields float_str rec) k
  = dict_get (rev (map (field_of float_str) (plain_entries rec))) k
  /\ dict_ok (fields float_str rec).
Proof.
  unfold fields. split.
  - rewrite fields_fold_lookup. now destruct (dict_get (rev _) k).
  - apply fields_fold_ok. constructor.
Qed.
End FieldsLookup.

(* ===================================================================== *)
(** ** The interpreter on the entries of a record *)
(* ===================================================================== *)

Lemma map_filter_split {A B : Type} (f : A -> B) (p : A -> bool)
    (l : list A) (l1 l2 : list B) (x : B) :
  map f (filter p l) = (l1 ++ x :: l2)%list ->
  exists r1 e r2,
    l = (r1 ++ e :: r2)%list /\ p e = true /\ f e = x
    /\ map f (filter p r1) = l1 /\ map f (filter p r2) = l2.
Proof.
  revert l1. induction l as [|a l IH]; intros l1 H; simpl in H.
  - now destruct l1.
  - destruct (p a) eqn:Hp.
    + destruct l1 as [|y l1]; simpl in H; injection H as Ha Hl.
      * exists [], a, l. auto.
      * destruct (IH _ Hl) as (r1 & e & r2 & -> & He & Hx & H1 & H2).
        exists (a :: r1), e, r2. simpl. rewrite Hp. simpl.
        repeat split; auto. now rewrite Ha, H1.
    + destruct (IH _ H) as (r1 & e & r2 & -> & He & Hx & H1 & H2).
      exists (a :: r1), e, r2. simpl. rewrite Hp. auto.
Qed.

Lemma dict_get_rev_split {V : Type} (l : dict V) (k : string) (v : V) :
  dict_get (rev l) k = Some v ->
  exists l1 l2, l = (l1 ++ (k, v) :: l2)%list /\ ~ In k (keys l2).
Proof.
  induction l as [|[k0 v0] l IH]; simpl; [discriminate|].
  rewrite dict_get_app. destruct (dict_get (rev l) k) as [v'|] eqn:E.
  - intros [= ->]. destruct (IH eq_refl) as (l1 & l2 & -> & Hk).
    exists ((k0, v0) :: l1), l2. auto.
  - simpl. destruct (String.eqb_spec k0 k) as [->|_]; [|discriminate].
    intros [= ->]. exists [], l. split; [reflexivity|].
    apply dict_get_none in E. unfold keys in *.
    rewrite map_rev in E. now rewrite in_rev.
Qed.

Lemma last_char_cons (p : option ascii) (c : ascii) (s : string) :
  last_char p (String c s) = last_char None (String c s).
Proof. reflexivity. Qed.

Lemma rstrip_kept (s : string) :
  match last_char None s with
  | Some d => is_space d = false
  | None => True
  end ->
  rstrip s = s.
Proof.
  induction s as [|c s IH]; [reflexivity|].
  destruct s as [|d s].
  - simpl. now intros ->.
  - intros H. change (last_char None (String c (String d s)))
      with (last_char None (String d s)) in H.
    change (rstrip (String c (String d s)))
      with (match rstrip (String d s) with
            | EmptyString =>
                if is_space c then EmptyString else String c EmptyString
            | r => String c r
            end).
    now rewrite (IH H).
Qed.

Lemma strip_trimmed (s : string) : trimmed s = true -> strip s = s.
Proof.
  destruct s as [|c s]; [reflexivity|].
  unfold trimmed. intros H. apply andb_true_iff in H as [Hc Hl].
  apply negb_true_iff in Hc. unfold strip.
  cbn [lstrip]. rewrite Hc. apply rstrip_kept.
  destruct (last_char None (String c s)); [|exact I].
  now apply negb_true_iff.
Qed.

Lemma lstrip_split (s : string) :
  exists pad,
    s = pad ++ lstrip s /\ all_chars is_space pad = true
    /\ match lstrip s with
       | EmptyString => True
       | String c _ => is_space c = false
       end.
Proof.
  induction s as [|c s (pad & Hs & Hpad & Hc)].
  - exists EmptyString. repeat split.
  - simpl. destruct (is_space c) eqn:E.
    + exists (String c pad). simpl. rewrite E, Hpad, <- Hs.
      repeat split. exact Hc.
    + exists EmptyString. repeat split. exact E.
Qed.

Lemma rstrip_split (s : string) :
  exists pad,
    s = rstrip s ++ pad /\ all_chars is_space pad = true
    /\ match last_char None (rstrip s) with
       | Some d => is_space d = false
       | None => True
       end
    /\ match s with
       | EmptyString => True
       | String c _ =>
           is_space c = false -> exists r, rstrip s = String c r
       end.
Proof.
  induction s as [|c s (pad & Hs & Hpad & Hl & _)].
  - exists EmptyString. repeat split.
  - cbn [rstrip]. destruct (rstrip s) as [|d r] eqn:E.
    + simpl in Hs. subst pad. destruct (is_space c) eqn:Hc.
      * exists (String c s). simpl. rewrite Hc, Hpad.
        repeat split. discriminate.
      * exists s. simpl. repeat split; eauto.
    + exists pad.
      change (last_char None (String c (String d r)))
        with (last_char None (String d r)).
      change (String c (String d r) ++ pad)
        with (String c (String d r ++ pad)).
      rewrite <- Hs. repeat split; eauto.
Qed.

(** Every text is a trimmed text with white space on either side, and
    [strip] finds it. *)
Lemma strip_split (s : string) :
  exists pad1 pad2,
    s = pad1 ++ strip s ++ pad2 /\ all_chars is_space pad1 = true
    /\ all_chars is_space pad2 = true /\ trimmed (strip s) = true.
Proof.
  destruct (lstrip_split s) as (pad1 & Hs & Hp1 & Hc).
  destruct (rstrip_split (lstrip s)) as (pad2 & Hr & Hp2 & Hl & Hfirst).
  exists pad1, pad2. unfold strip. rewrite <- Hr. repeat split; auto.
  destruct (lstrip s) as [|c r] eqn:E; [reflexivity|].
  destruct (Hfirst Hc) as (r' & Hr'). rewrite Hr' in *.
  unfold trimmed. rewrite Hc. simpl negb. cbn [andb].
  destruct (last_char None (String c r')); [|reflexivity].
  now rewrite Hl.
Qed.

Lemma whole_word_in_lower (t sv : string) :
  whole_word_in (lower t) sv <-> whole_word_in t sv.
Proof. unfold whole_word_in. now rewrite lower_idem. Qed.

Section EntriesRead.
Variable float_str : float -> string.

Lemma read_entry_in (rec : record) (k : string) (v : scalar) :
  read_entry rec k v -> In (k, v) rec.
Proof.
  intros (_ & r1 & r2 & -> & _). apply in_or_app. right. now left.
Qed.

(** The fields of a record are the entries that are read, keys lower-cased
    and values as trimmed text. *)
Lemma fields_read (rec : record) (lk s : string) :
  In (lk, s) (fields float_str rec) <->
  exists k v,
    read_entry rec k v /\ lk = lower k /\ s = strip (str float_str v).
Proof.
  assert (forall x, dict_get (fields float_str rec) x
                    = dict_get (rev (map (field_of float_str)
                                         (plain_entries rec))) x) as Hget.
  { intros x. unfold fields. rewrite fields_fold_lookup.
    now destruct (dict_get (rev _) x). }
  split.
  - intros Hin.
    assert (dict_ok (fields float_str rec)) as Hok
        by (apply fields_fold_ok; constructor).
    apply (dict_get_of_in _ _ _ Hok) in Hin. rewrite Hget in Hin.
    apply dict_get_rev_split in Hin as (l1 & l2 & Hl & Hk).
    unfold plain_entries in Hl.
    apply map_filter_split in Hl as (r1 & [k v] & r2 & -> & Hv & He & _ & H2).
    simpl in Hv. unfold field_of in He. simpl in He. injection He as <- <-.
    exists k, v. split; [|auto]. split; [exact Hv|].
    exists r1, r2.
    split; [reflexivity|]. intros k' v' Hin' Hv' Heq. apply Hk.
    rewrite <- H2. unfold keys. rewrite map_map. apply in_map_iff.
    exists (k', v'). split; [exact Heq|]. apply filter_In. auto.
  - intros (k & v & (Hv & r1 & r2 & -> & Hlater) & -> & ->).
    apply dict_get_in. rewrite Hget. unfold plain_entries.
    rewrite filter_app. cbn [filter snd]. rewrite Hv.
    rewrite map_app. cbn [map]. rewrite rev_app_distr. cbn [rev].
    rewrite <- app_assoc, dict_get_app.
    assert (dict_get (rev (map (field_of float_str)
                               (filter (fun kv => is_plain (snd kv)) r2)))
                     (lower k) = None) as ->.
    { apply dict_get_none. unfold keys. rewrite map_rev, <- in_rev, map_map.
      intros Hin. apply in_map_iff in Hin as ([k' v'] & Heq & Hin).
      apply filter_In in Hin as [Hin Hv']. now apply (Hlater k' v'). }
    unfold field_of. simpl. now rewrite String.eqb_refl.
Qed.

Lemma values_where_read (toks : list string) (rec : record) (s : string) :
  In s (values_where toks (fields float_str rec)) <->
  exists k v,
    read_entry rec k v /\ any_in toks (lower k) = true
    /\ s = strip (str float_str v).
Proof.
  unfold values_where, values. rewrite in_map_iff. split.
  - intros ([lk s'] & <- & Hin). apply filter_In in Hin as [Hin Hk].
    apply fields_read in Hin as (k & v & Hread & -> & ->). eauto.
  - intros (k & v & Hread & Hk & ->).
    exists (lower k, strip (str float_str v)). split; [reflexivity|].
    apply filter_In. split; [|exact Hk]. apply fields_read. eauto.
Qed.


(** C4. The target is trimmed and lower-cased, and a record is accepted
    exactly when one of the size-like values the interpreter reads in it,
    lower-cased, is that target, or holds it, letter case apart, between two
    word boundaries: an accepted record is interpreted, any other is passed
    over. So the target [S], in any letter case and with white space around
    it, matches neither [Small] nor [XS] and matches [S] and [Size: S]. *)
Theorem size_match_whole_word :
  (forall target_size,
      exists pad1 core pad2,
        target_size = pad1 ++ core ++ pad2
        /\ all_chars is_space pad1 = true /\ all_chars is_space pad2 = true
        /\ trimmed core = true)
  /\ (forall pad1 core pad2 rec rest,
        all_chars is_space pad1 = true -> all_chars is_space pad2 = true ->
        trimmed core = true ->
        let target_size := pad1 ++ core ++ pad2 in
        let accepted :=
          exists k v,
            read_entry rec k v
            /\ any_in SIZE_FIELD_TOKENS (lower k) = true
            /\ (lower (strip (str float_str v)) = lower core
                \/ whole_word_in core (strip (str float_str v))) in
        (accepted ->
         _interpret_availability float_str (rec :: rest) target_size
         = (r <- record_signals float_str rec ;;
            match r with
            | Some d => Return (Some d)
            | None => _interpret_availability float_str rest target_size
            end))
        /\ (~ accepted ->
            _interpret_availability float_str (rec :: rest) target_size
            = _interpret_availability float_str rest target_size))
  /\ size_value_matches (lower (strip "S")) "Small" = false
  /\ size_value_matches (lower (strip "S")) "XS" = false
  /\ size_value_matches (lower (strip "S")) "S" = true
  /\ size_value_matches (lower (strip "S")) "Size: S" = true
  /\ _interpret_availability float_str [rec_status "Small" "in stock"] "S"
     = Return None
  /\ _interpret_availability float_str [rec_status "XS" "in stock"] "S"
     = Return None
  /\ _interpret_availability float_str [rec_status "S" "in stock"] "S"
     = Return (Some (true, "in stock"))
  /\ _interpret_availability float_str [rec_status "Size: S" "in stock"] "S"
     = Return (Some (true, "in stock"))
  /\ _interpret_availability float_str [rec_status "Small" "in stock"] " s "
     = Return None
  /\ _interpret_availability float_str [rec_status "xs" "in stock"] "S  "
     = Return None
  /\ _interpret_availability float_str [rec_status "s" "in stock"] "  S"
     = Return (Some (true, "in stock"))
  /\ _interpret_availability float_str [rec_status "Size: S" "in stock"] " s "
     = Return (Some (true, "in stock"))
  /\ _interpret_availability float_str [rec_status "(s)" "in stock"] " (S) "
     = Return (Some (true, "in stock")).
Proof.
  split.
  { intros target_size. destruct (strip_split target_size)
      as (pad1 & pad2 & H). exists pad1, (strip target_size), pad2. exact H. }
  split; [|repeat split; reflexivity].
  intros pad1 core pad2 rec rest Hp1 Hp2 Hcore target_size accepted.
  assert (lower (strip target_size) = lower core) as Ht.
  { unfold target_size. now rewrite (strip_pad _ _ _ Hp1 Hp2), strip_trimmed. }
  assert (size_match float_str (lower core) rec = true <-> accepted) as Hiff.
  { rewrite size_match_iff. unfold accepted. split.
    - intros (sv & Hin & H).
      apply values_where_read in Hin as (k & v & Hread & Hk & ->).
      exists k, v. rewrite whole_word_in_lower in H. auto.
    - intros (k & v & Hread & Hk & H). exists (strip (str float_str v)).
      split; [apply values_where_read; eauto|].
      now rewrite whole_word_in_lower. }
  unfold _interpret_availability. rewrite Ht. cbn [interpret_records].
  split.
  - intros Hacc. apply Hiff in Hacc.
    now rewrite (interpret_record_matched _ _ _ Hacc).
  - intros Hno.
    destruct (size_match float_str (lower core) rec) eqn:E.
    + elim Hno. now apply Hiff.
    + now rewrite (interpret_record_unmatched _ _ _ E).
Qed.
End EntriesRead.



Lemma size_match_whole_word_witness :
  _interpret_availability float_str_const [rec_status "Size: S" "in stock"]
                          (" " ++ "s" ++ "  ")
  = Return (Some (true, "in stock"))
  /\ _interpret_availability float_str_const [rec_status "Small" "in stock"]
                             (" " ++ "s" ++ "  ")
     = Return None.
Proof.
  destruct (size_match_whole_word float_str_const) as (_ & H & _).
  split.
  - destruct (H " " "s" "  " (rec_status "Size: S" "in stock") []
                eq_refl eq_refl eq_refl) as [Hyes _].
    rewrite Hyes; [reflexivity|].
    exists "v.size", (SStr "Size: S"). split; [|split].
    + split; [reflexivity|].
      exists [], [("v.availability", SStr "in stock")].
      split; [reflexivity|].
      intros k' v' [[= <- <-]|[]] _. discriminate.
    + reflexivity.
    + right. apply whole_word_search. reflexivity.
  - destruct (H " " "s" "  " (rec_status "Small" "in stock") []
                eq_refl eq_refl eq_refl) as [_ Hno].
    rewrite Hno; [reflexivity|].
    intros (k & v & Hread & Hk & Hm). apply read_entry_in in Hread.
    simpl in Hread. destruct Hread as [[= <- <-]|[[= <- <-]|[]]].
    + destruct Hm as [Hm|Hm]; [discriminate Hm|].
      apply whole_word_search in Hm. discriminate Hm.
    + discriminate Hk.
Defined.
